(** * booster: a WebSocket session broker (hub.go, session, booster.go)

    A shallow embedding of the connection-and-broadcast engine:

    - [Chan]: Go channels of envelopes, as the runtime implements them
      (a FIFO buffer of fixed capacity and a closed flag);
    - session operations ([writeMessage], [Write], [Close], [writeRaw],
      the write loop [writePump] as a step function, the key-value store);
    - the hub ([Hub], the cases of [Hub.Run] as lists of atomic operations
      executed by [hub_step], so that a send which parks the loop is visible);
    - the broker ([getHub], [PushMessage]).

    A [*Session] is a record holding the address and the two fields that
    never change after construction; everything a session mutates lives in
    the [World], indexed by that record.  Two sessions are the same instance
    iff the records are equal (distinct addresses give distinct instances
    with equal field values). *)

From stdpp Require Import base option list functions gmap strings fin_maps.
From Stdlib Require Import ZArith Lia.

Local Open Scope Z_scope.
Local Open Scope string_scope.
Local Open Scope list_scope.

(** ** The transport library's message kinds (gorilla/websocket) *)

Module websocket.
Definition TextMessage : Z := 1.
Definition BinaryMessage : Z := 2.
Definition CloseMessage : Z := 8.
Definition PingMessage : Z := 9.
Definition PongMessage : Z := 10.
End websocket.

(** ** Sessions and envelopes *)

Record Session := mkSession {
  addr : nat;          (* the address the pointer holds *)
  userId : string;
  appId : string
}.

#[global] Instance Session_eq_dec : EqDecision Session.
Proof. solve_decision. Defined.

Definition FilterFunc := Session -> bool.

(** Modelled from the spec: the declaration of [envelope] is not among the
    sources.  The fields are the ones the code reads and writes: message
    kind [t], payload [msg], target users [userIds], optional [filter]
    ([None] is Go's nil function). *)
Record envelope := mkEnvelope {
  t : Z;
  msg : list Byte.byte;
  userIds : list string;
  filter : option FilterFunc
}.

(** Modelled from the spec: the declaration of [Config] is not among the
    sources; only the outbound queue capacity matters to the model (the
    durations bound how long a transport call may take). *)
Record Config := mkConfig {
  MessageBufferSize : nat
}.

Inductive error :=
| ErrChannelFull (message : envelope)   (* "write channel full, abandon message[%v]" *)
| ErrHubClosed (app : string)           (* "appId[%v] hub has closed" *)
| ErrTransport (what : string).         (* an error returned by the connection *)

(** ** Outcomes of an operation that may park its goroutine or panic *)

Inductive outcome (A : Type) :=
| Done (a : A)
| Blocks
| Panics (reason : string).
Arguments Done {A} a.
Arguments Blocks {A}.
Arguments Panics {A} reason.

#[global] Instance outcome_ret : MRet outcome := fun A a => Done a.
#[global] Instance outcome_bind : MBind outcome := fun A B k o =>
  match o with
  | Done a => k a
  | Blocks => Blocks
  | Panics r => Panics r
  end.

(** ** Channels *)

Module Chan.

Record chan := mkChan {
  buf : list envelope;     (* queued elements, oldest first *)
  dataqsiz : nat;          (* capacity given to make *)
  closed : bool
}.

Definition put_n (n : nat) (ep : envelope) (c : chan) : chan :=
  {| buf := buf c ++ replicate n ep; dataqsiz := dataqsiz c; closed := closed c |}.

Definition make (size : nat) : chan :=
  {| buf := []; dataqsiz := size; closed := false |}.

Definition full (c : chan) : bool := (dataqsiz c <=? length (buf c))%nat.

Definition put (ep : envelope) (c : chan) : chan :=
  {| buf := buf c ++ [ep]; dataqsiz := dataqsiz c; closed := closed c |}.

(** [c <- ep] when [block], the send case of a [select] with a default
    otherwise; the boolean tells whether the element was taken.  Handing an
    element to a receiver parked on the channel is the enqueue followed by
    the consumer's [recv]; with capacity 0, where a send can only complete
    by such a hand-over, the channel is always full here. *)
Definition send (c : chan) (ep : envelope) (block : bool) : outcome (chan * bool) :=
  if closed c then Panics "send on closed channel"
  else if full c then (if block then Blocks else Done (c, false))
  else Done (put ep c, true).

(** [v, ok := <-c]: [Some] element and the rest, [None] with [ok = false]
    on a closed and drained channel. *)
Definition recv (c : chan) : outcome (chan * option envelope) :=
  match buf c with
  | ep :: rest => Done ({| buf := rest; dataqsiz := dataqsiz c; closed := closed c |}, Some ep)
  | [] => if closed c then Done (c, None) else Blocks
  end.

Definition close (c : chan) : outcome chan :=
  if closed c then Panics "close of closed channel"
  else Done {| buf := buf c; dataqsiz := dataqsiz c; closed := true |}.

End Chan.

(** ** What a session mutates, and what the outside observes *)

(** Values of type [interface{}] kept in the key-value store. *)
Inductive any :=
| Nil
| String_ (v : string)
| Int (v : Z)
| Int64 (v : Z)
| Other (tag : nat).

(** Where the write loop stands. *)
Inductive pump_pc :=
| InLoop          (* at the select *)
| SendingExited   (* left the loop, parked on [s.exited <- true] *)
| Returned.       (* signalled, deferred calls run *)

Record SessionState := mkSessionState {
  output : Chan.chan;
  keys : gmap string any;
  pump : pump_pc
}.

Inductive event :=
| CallErrorHandler (s : Session) (err : error)
| Println (what : string)
| SetWriteDeadline (s : Session)
| WriteMessage (s : Session) (kind : Z) (data : list Byte.byte)
| ConnClose (s : Session)
| TickerStop (s : Session).

Record World := mkWorld {
  heap : Session -> SessionState;
  log : list event            (* calls made so far, oldest first *)
}.

Definition set_output (c : Chan.chan) (st : SessionState) : SessionState :=
  {| output := c; keys := keys st; pump := pump st |}.
Definition set_keys (k : gmap string any) (st : SessionState) : SessionState :=
  {| output := output st; keys := k; pump := pump st |}.
Definition set_pump (p : pump_pc) (st : SessionState) : SessionState :=
  {| output := output st; keys := keys st; pump := p |}.

Definition update (s : Session) (f : SessionState -> SessionState) (w : World) : World :=
  {| heap := <[s := f (heap w s)]> (heap w); log := log w |}.
Definition emit (evs : list event) (w : World) : World :=
  {| heap := heap w; log := log w ++ evs |}.

(** ** The hub's data, and the broker's *)

Record Hub := mkHub {
  closed : Z;                                (* uint32, written by atomic store *)
  exited : bool;                             (* a value was sent on h.exited *)
  sessions : gmap string (list Session)
}.

Definition NewHub : Hub := {| closed := 0; exited := false; sessions := ∅ |}.

Definition Closed (h : Hub) : bool := bool_decide (closed h = 1).

(** What the loop of [Hub.Run] receives at its select. *)
Inductive hub_event :=
| EvExit
| EvRegister (s : Session)
| EvUnRegister (s : Session)
| EvBroadcast (e : envelope).

(** The statements a case of the loop executes; each one is atomic for the
    other goroutines, and some may park the loop. *)
Inductive hub_op :=
| StoreClosed                          (* atomic.StoreUint32(&h.closed, 1) *)
| SessionClose (s : Session)           (* s.Close() *)
| CloseOutput (s : Session)            (* close(s.output) *)
| RecvExited (s : Session)             (* <-s.exited *)
| DeleteKey (key : string)             (* delete(h.sessions, key) *)
| Register (s : Session)               (* body of case s := <-h.register *)
| UnRegister (s : Session)             (* body of case s := <-h.unRegister *)
| Send (s : Session) (e : envelope)    (* s.output <- e *)
| SendHubExited.                       (* break LOOP; h.exited <- true *)

(** A hub together with its goroutine: [pending] is what is left of the
    case being executed ([[]] at the select).  [Run] has returned once
    [exited] is set. *)
Record HubProc := mkHubProc {
  hub : Hub;
  pending : list hub_op
}.

(** [errorHandler] is [true] once [HandleError] stored a function; calling
    it is recorded as [CallErrorHandler], and it is taken to return. *)
Record Booster := mkBooster {
  config : Config;
  errorHandler : bool;
  hubs : gmap string HubProc
}.

(** The state of a session as [HandleWs] builds it: a queue of the
    configured capacity and no keys; its write loop is started right after
    the registration. *)
Definition new_session (b : Booster) : SessionState :=
  {| output := Chan.make (MessageBufferSize (config b)); keys := ∅; pump := InLoop |}.

(** ** Session operations *)

(** What the connection answers to the calls of one [writeRaw]. *)
Record io := mkIo {
  write_err : option error;    (* result of conn.WriteMessage *)
  close_err : option error     (* result of conn.Close *)
}.

Inductive select_case := CaseOutput | CaseTicker.

Definition close_envelope : envelope :=
  {| t := websocket.CloseMessage; msg := []; userIds := []; filter := None |}.
Definition ping_envelope : envelope :=
  {| t := websocket.PingMessage; msg := []; userIds := []; filter := None |}.

Section SessionOps.
Variable b : Booster.

(** [s.booster.errorHandler(s, err)]: calling a nil function panics. *)
Definition call_errorHandler (s : Session) (err : error) (w : World) : outcome World :=
  if errorHandler b then Done (emit [CallErrorHandler s err] w)
  else Panics "invalid memory address or nil pointer dereference".

(** The body of [writeMessage], before the deferred [recover]. *)
Definition writeMessage_select (s : Session) (message : envelope) (w : World) : outcome World :=
  '(c, selected) ← Chan.send (output (heap w s)) message false;
  if selected : bool then Done (update s (set_output c) w)
  else call_errorHandler s (ErrChannelFull message) w.

(** [defer func() { if err := recover(); err != nil { fmt.Println(err) } }()]:
    both panics above happen before anything was changed. *)
Definition writeMessage (s : Session) (message : envelope) (w : World) : outcome World :=
  match writeMessage_select s message w with
  | Panics r => Done (emit [Println r] w)
  | o => o
  end.

Definition Write (s : Session) (m : list Byte.byte) : World -> outcome World :=
  writeMessage s {| t := websocket.TextMessage; msg := m; userIds := []; filter := None |}.

Definition WriteBinary (s : Session) (m : list Byte.byte) : World -> outcome World :=
  writeMessage s {| t := websocket.BinaryMessage; msg := m; userIds := []; filter := None |}.

Definition Close (s : Session) : World -> outcome World :=
  writeMessage s close_envelope.

(** [writeRaw]: the deadline, the frame, and for a close frame the
    connection's [Close]; the error returned is the first one met. *)
Definition writeRaw (r : io) (s : Session) (message : envelope) (w : World)
  : World * option error :=
  let w := emit [SetWriteDeadline s; WriteMessage s (t message) (msg message)] w in
  match write_err r with
  | Some err => (w, Some err)
  | None =>
      if (t message =? websocket.CloseMessage)%Z
      then (emit [ConnClose s] w, close_err r)
      else (w, None)
  end.

(** [close] and [ping] drop what [writeRaw] returns. *)
Definition close (r : io) (s : Session) (w : World) : World :=
  fst (writeRaw r s close_envelope w).
Definition ping (r : io) (s : Session) (w : World) : World :=
  fst (writeRaw r s ping_envelope w).

(** One turn of the loop of [writePump]: [sel] is the case the select
    takes, [r] what the connection answers during the turn.  After the
    loop the goroutine parks on [s.exited <- true] ([recv_exited] is the
    other side).  A panic here is not recovered. *)
Definition writePump_step (sel : select_case) (r : io) (s : Session) (w : World)
  : outcome World :=
  match pump (heap w s) with
  | InLoop =>
      match sel with
      | CaseOutput =>
          '(c, m) ← Chan.recv (output (heap w s));
          let w := update s (set_output c) w in
          match m with
          | None => Done (update s (set_pump SendingExited) (close r s w))
          | Some message =>
              let '(w, err) := writeRaw r s message w in
              match err with
              | Some err =>
                  w ← call_errorHandler s err w;
                  Done (update s (set_pump SendingExited) w)
              | None => Done w
              end
          end
      | CaseTicker => Done (ping r s w)
      end
  | SendingExited => Blocks
  | Returned => Blocks
  end.

(** [<-s.exited] as the hub executes it: it completes when the write loop
    is parked on the send; the write loop then returns and its deferred
    calls run. *)
Definition recv_exited (s : Session) (w : World) : outcome World :=
  match pump (heap w s) with
  | SendingExited => Done (emit [TickerStop s; ConnClose s] (update s (set_pump Returned) w))
  | _ => Blocks
  end.

(** The write loop of [s] taking the output case up to [n] times, until it
    has left the loop. *)
Fixpoint run_pump (r : nat -> io) (n : nat) (s : Session) (w : World) : outcome World :=
  match n with
  | O => Done w
  | S n' =>
      match pump (heap w s) with
      | InLoop => w' ← writePump_step CaseOutput (r n') s w; run_pump r n' s w'
      | _ => Done w
      end
  end.

End SessionOps.

(** ** The key-value store of a session *)

Definition Set_ (s : Session) (key : string) (val : any) (w : World) : World :=
  update s (fun st => set_keys (<[key := val]> (keys st)) st) w.

Definition Get (s : Session) (key : string) (w : World) : any :=
  default Nil (keys (heap w s) !! key).

Definition MustGet (s : Session) (key : string) (w : World) : outcome any :=
  match Get s key w with
  | Nil => Panics ("Session MustGet:" +:+ key +:+ " fail")
  | val => Done val
  end.

Definition GetString (s : Session) (key : string) (w : World) : string :=
  match Get s key w with
  | Nil => ""
  | String_ v => v
  | _ => ""
  end.

Definition GetInt (s : Session) (key : string) (w : World) : Z :=
  match Get s key w with
  | Nil => 0
  | Int v => v
  | _ => 0
  end.

Definition GetInt64 (s : Session) (key : string) (w : World) : Z :=
  match Get s key w with
  | Nil => 0
  | Int64 v => v
  | _ => 0
  end.

(** ** The cases of [Hub.Run] *)

(** [case s := <-h.register] *)
Definition register (h : Hub) (s : Session) : Hub :=
  if Closed h then h
  else
    let m := match sessions h !! userId s with
             | None => <[userId s := []]> (sessions h)
             | Some _ => sessions h
             end in
    {| closed := closed h; exited := exited h;
       sessions := <[userId s := default [] (m !! userId s) ++ [s]]> m |}.

(** The index at which [for i, s1 := range ss { if s1 == s ... break }] stops. *)
Fixpoint index_of (s : Session) (ss : list Session) : option nat :=
  match ss with
  | [] => None
  | s1 :: rest => if decide (s1 = s) then Some O else S <$> index_of s rest
  end.

(** [case s := <-h.unRegister] *)
Definition unRegister (h : Hub) (s : Session) : Hub :=
  if Closed h then h
  else
    match sessions h !! userId s with
    | Some ss =>
        match index_of s ss with
        | Some i =>
            {| closed := closed h; exited := exited h;
               sessions := <[userId s := take i ss ++ drop (S i) ss]> (sessions h) |}
        | None => h
        end
    | None => h
    end.

(** [e.filter != nil && !e.filter(s)] *)
Definition rejected (e : envelope) (s : Session) : bool :=
  match filter e with
  | Some fn => negb (fn s)
  | None => false
  end.

(** [for _, s := range ss { if rejected { continue }; s.output <- e }] *)
Definition fan_out (e : envelope) (ss : list Session) : list hub_op :=
  flat_map (fun s => if rejected e s then [] else [Send s e]) ss.

(** [case e := <-h.broadcast]; [order] is the sequence in which
    [range h.sessions] yields the entries. *)
Definition case_broadcast (order : list (string * list Session)) (h : Hub) (e : envelope)
  : list hub_op :=
  if Closed h then []
  else if (0 <? length (userIds e))%nat then
    flat_map (fun u => match sessions h !! u with
                       | None => []
                       | Some ss => fan_out e ss
                       end) (userIds e)
  else flat_map (fun '(_, ss) => fan_out e ss) order.

(** [case <-h.exit] *)
Definition case_exit (order : list (string * list Session)) : list hub_op :=
  StoreClosed
    :: flat_map (fun '(key, ss) =>
                   flat_map (fun s => [SessionClose s; CloseOutput s; RecvExited s]) ss
                     ++ [DeleteKey key]) order
    ++ [SendHubExited].

Definition Run_case (order : list (string * list Session)) (h : Hub) (ev : hub_event)
  : list hub_op :=
  match ev with
  | EvExit => case_exit order
  | EvRegister s => [Register s]
  | EvUnRegister s => [UnRegister s]
  | EvBroadcast e => case_broadcast order h e
  end.

Section HubOps.
Variable b : Booster.

Definition exec_op (op : hub_op) (h : Hub) (w : World) : outcome (Hub * World) :=
  match op with
  | StoreClosed =>
      Done ({| closed := 1; exited := exited h; sessions := sessions h |}, w)
  | SessionClose s => w' ← Close b s w; Done (h, w')
  | CloseOutput s =>
      c ← Chan.close (output (heap w s)); Done (h, update s (set_output c) w)
  | RecvExited s => w' ← recv_exited s w; Done (h, w')
  | DeleteKey key =>
      Done ({| closed := closed h; exited := exited h;
               sessions := delete key (sessions h) |}, w)
  | Register s => Done (register h s, w)
  | UnRegister s => Done (unRegister h s, w)
  | Send s e =>
      '(c, _) ← Chan.send (output (heap w s)) e true;
      Done (h, update s (set_output c) w)
  | SendHubExited =>
      Done ({| closed := closed h; exited := true; sessions := sessions h |}, w)
  end.

(** The loop takes an event only at its select. *)
Definition hub_recv (order : list (string * list Session)) (ev : hub_event) (p : HubProc)
  : outcome HubProc :=
  if exited (hub p) then Blocks
  else
    match pending p with
    | [] => Done {| hub := hub p; pending := Run_case order (hub p) ev |}
    | _ :: _ => Blocks
    end.

(** One statement of the case at hand. *)
Definition hub_step (p : HubProc) (w : World) : outcome (HubProc * World) :=
  match pending p with
  | [] => Blocks
  | op :: rest =>
      '(h, w') ← exec_op op (hub p) w;
      Done ({| hub := h; pending := rest |}, w')
  end.

(** The hub alone: up to [n] statements, stopping at the first one that
    does not complete. *)
Fixpoint hub_run (n : nat) (p : HubProc) (w : World) : HubProc * World :=
  match n with
  | O => (p, w)
  | S n' =>
      match hub_step p w with
      | Done (p', w') => hub_run n' p' w'
      | _ => (p, w)
      end
  end.

(** The hub and the write loops it waits for: when the loop is about to
    receive from [s.exited], the write loop of [s] runs until it parks
    there ([r] gives the connection's answers). *)
Fixpoint run_ops (r : nat -> io) (ops : list hub_op) (h : Hub) (w : World)
  : outcome (Hub * World) :=
  match ops with
  | [] => Done (h, w)
  | op :: rest =>
      w1 ← match op with
           | RecvExited s =>
               run_pump b r (S (length (Chan.buf (output (heap w s))))) s w
           | _ => Done w
           end;
      '(h', w') ← exec_op op h w1;
      run_ops r rest h' w'
  end.

(** [Hub.Close] as its caller sees it: [close(h.exit)] is taken by the
    loop at its select, the exit case runs, and [<-h.exited] completes
    once the loop has sent.  Nothing but [Hub.Close] touches [h.exit] and
    only the exit case sends on [h.exited], so a hub that has sent there
    has had [h.exit] closed, and closing it again panics. *)
Definition Hub_Close (r : nat -> io) (order : list (string * list Session))
    (p : HubProc) (w : World) : outcome (HubProc * World) :=
  if exited (hub p) then Panics "close of closed channel"
  else
    p1 ← hub_recv order EvExit p;
    '(h', w') ← run_ops r (pending p1) (hub p1) w;
    if exited h' then Done ({| hub := h'; pending := [] |}, w') else Blocks.

End HubOps.

(** ** The broker *)

Definition set_hubs (m : gmap string HubProc) (b : Booster) : Booster :=
  {| config := config b; errorHandler := errorHandler b; hubs := m |}.

(** [getHub]: [NewHub()] and [go h.Run()] on the first use of an appId. *)
Definition getHub (b : Booster) (app : string) : Booster * HubProc :=
  match hubs b !! app with
  | None =>
      let h := {| hub := NewHub; pending := [] |} in
      (set_hubs (<[app := h]> (hubs b)) b, h)
  | Some h => (b, h)
  end.

(** [PushMessage]; [h.broadcast <- message] completes when the loop of the
    hub takes the envelope at its select.  In the code the map holds a
    pointer to the hub and only [getHub] writes the map; here the map holds
    the hub's state, so the state of the loop that took the envelope is put
    back under the key [getHub] used. *)
Definition PushMessage (order : list (string * list Session)) (b : Booster) (app : string)
    (users : list string) (m : list Byte.byte) (fn : option FilterFunc)
  : outcome (Booster * option error) :=
  let '(b, h) := getHub b app in
  if Closed (hub h) then Done (b, Some (ErrHubClosed app))
  else
    let message := {| t := websocket.TextMessage; msg := m; userIds := users; filter := fn |} in
    h' ← hub_recv order (EvBroadcast message) h;
    Done (set_hubs (<[app := h']> (hubs b)) b, None).

(** ** Contracts the properties below are stated with *)

(** The non-blocking enqueue as a caller sees it: the call returns, touches
    no other session, and either drops the envelope with one "channel full"
    report or appends it without any report. *)
Definition enqueue_contract (op : World -> outcome World) (s : Session) (e : envelope)
    (w : World) : Prop :=
  exists w', op w = Done w' /\
    (forall s', s' <> s -> heap w' s' = heap w s') /\
    if Chan.full (output (heap w s))
    then heap w' s = heap w s /\
         log w' = log w ++ [CallErrorHandler s (ErrChannelFull e)]
    else heap w' s = set_output (Chan.put e (output (heap w s))) (heap w s) /\
         log w' = log w.

Definition text_envelope (m : list Byte.byte) : envelope :=
  {| t := websocket.TextMessage; msg := m; userIds := []; filter := None |}.
Definition binary_envelope (m : list Byte.byte) : envelope :=
  {| t := websocket.BinaryMessage; msg := m; userIds := []; filter := None |}.

(** The calls of the error callback among some events. *)
Definition error_calls (evs : list event) : list (Session * error) :=
  omap (fun ev => match ev with
                  | CallErrorHandler s err => Some (s, err)
                  | _ => None
                  end) evs.

(** A turn of the write loop in which the connection refuses the frame
    reports that error once and is the last turn. *)
Definition reports_and_stops (b : Booster) (sel : select_case) (r : io) (s : Session)
    (w : World) : Prop :=
  forall err, write_err r = Some err ->
    exists w' evs, writePump_step b sel r s w = Done w' /\
      log w' = log w ++ evs /\
      error_calls evs = [(s, err)] /\
      pump (heap w' s) = SendingExited.

(** The sessions a list of statements sends to, one entry per send. *)
Definition targets (ops : list hub_op) : list Session :=
  omap (fun op => match op with Send s _ => Some s | _ => None end) ops.

(** The filter of an envelope lets a session through. *)
Definition accepted (e : envelope) (s : Session) : Prop :=
  match filter e with
  | None => True
  | Some fn => fn s = true
  end.

(** Register and unregister events, and the hub after a sequence of them. *)
Inductive reg_event :=
| Reg (s : Session)
| Unreg (s : Session).

Definition apply_reg (h : Hub) (ev : reg_event) : Hub :=
  match ev with
  | Reg s => register h s
  | Unreg s => unRegister h s
  end.

Definition count_reg (evs : list reg_event) (s : Session) : nat :=
  length (List.filter (fun ev => match ev with
                                 | Reg s' => bool_decide (s' = s)
                                 | Unreg _ => false
                                 end) evs).

Definition count_unreg (evs : list reg_event) (s : Session) : nat :=
  length (List.filter (fun ev => match ev with
                                 | Unreg s' => bool_decide (s' = s)
                                 | Reg _ => false
                                 end) evs).

(** What the two cases of the loop make of the number of times [s] is
    listed, the events taken one at a time: a register adds a listing, an
    unregister takes one away when there is one. *)
Fixpoint live_registrations (evs : list reg_event) (s : Session) (n : nat) : nat :=
  match evs with
  | [] => n
  | Reg s' :: rest => live_registrations rest s (if decide (s' = s) then S n else n)
  | Unreg s' :: rest => live_registrations rest s (if decide (s' = s) then pred n else n)
  end.

(** Every unregister cancels a registration made before it (what
    [HandleWs] produces: register, then unregister, once each). *)
Definition unregister_follows_register (evs : list reg_event) : Prop :=
  forall pre s post, evs = pre ++ Unreg s :: post ->
    (count_unreg pre s < count_reg pre s)%nat.

(** How often [s] is listed under [u]. *)
Definition listed (h : Hub) (u : string) (s : Session) : nat :=
  count_occ Session_eq_dec (default [] (sessions h !! u)) s.

(** Following the spec's words: the final registry content of a new hub
    equals the sessions registered minus those unregistered, a session
    being listed under its own user as often as it was registered less the
    number of times it was unregistered, and under no other user. *)
Definition registered_minus_unregistered (evs : list reg_event) : Prop :=
  forall u s,
    listed (fold_left apply_reg evs NewHub) u s
      = if decide (userId s = u)
        then (count_reg evs s - count_unreg evs s)%nat else 0%nat.

(** The sessions of some registry entries, in order. *)
Definition entry_sessions (order : list (string * list Session)) : list Session :=
  flat_map snd order.

(** The statements of the exit case for the sessions of one user. *)
Definition teardown (ss : list Session) : list hub_op :=
  flat_map (fun s => [SessionClose s; CloseOutput s; RecvExited s]) ss.

(** The statements of the exit case for whole entries. *)
Definition teardown_entries (order : list (string * list Session)) : list hub_op :=
  flat_map (fun '(key, ss) => teardown ss ++ [DeleteKey key]) order.

(** A registered session the exit case can still tear down, and one it has
    torn down. *)
Definition ready (w : World) (s : Session) : Prop :=
  Chan.closed (output (heap w s)) = false /\ pump (heap w s) <> Returned.
Definition gone (w : World) (s : Session) : Prop :=
  pump (heap w s) = Returned /\ Chan.closed (output (heap w s)) = true.

(** The hub once the entries of [order] were deleted. *)
Definition drop_entries (order : list (string * list Session)) (h : Hub) : Hub :=
  fold_left (fun h kv => {| closed := closed h; exited := exited h;
                            sessions := delete (fst kv) (sessions h) |}) order h.

(** The registry is left alone for as long as a registered session has not
    exited: whenever the statements of the exit case executed so far leave
    a registered session that has not returned, no entry is gone. *)
Definition registry_kept_until_all_exited (b : Booster) (r : nat -> io)
    (order : list (string * list Session)) (h : Hub) (w : World) : Prop :=
  forall pre post h1 w1,
    case_exit order = pre ++ post ->
    run_ops b r pre h w = Done (h1, w1) ->
    (exists s, s ∈ entry_sessions order /\ pump (heap w1 s) <> Returned) ->
    sessions h1 = sessions h.

(** ** Sample data *)

Definition s1 : Session := mkSession 1 "a" "app".
Definition s2 : Session := mkSession 2 "a" "app".
Definition s3 : Session := mkSession 3 "b" "app".

Definition b_on : Booster := {| config := mkConfig 1; errorHandler := true; hubs := ∅ |}.
Definition b_off : Booster := {| config := mkConfig 1; errorHandler := false; hubs := ∅ |}.

Definition st_empty : SessionState := new_session b_on.
Definition st_full : SessionState :=
  {| output := {| Chan.buf := [text_envelope []]; Chan.dataqsiz := 1; Chan.closed := false |};
     keys := ∅; pump := InLoop |}.
Definition st_full_parked : SessionState :=
  {| output := {| Chan.buf := [text_envelope []]; Chan.dataqsiz := 1; Chan.closed := false |};
     keys := ∅; pump := SendingExited |}.
Definition st_closed : SessionState :=
  {| output := {| Chan.buf := []; Chan.dataqsiz := 1; Chan.closed := true |};
     keys := ∅; pump := InLoop |}.

Definition world_of (st : SessionState) : World := {| heap := fun _ => st; log := [] |}.

Definition ok_io : io := {| write_err := None; close_err := None |}.
Definition broken_io : io :=
  {| write_err := Some (ErrTransport "broken pipe"); close_err := None |}.

Definition hub_a : Hub := register NewHub s1.
Definition hub_ab : Hub := register (register (register NewHub s1) s2) s3.
Definition hub_done : Hub := {| closed := 1; exited := true; sessions := ∅ |}.
Definition b_open : Booster :=
  {| config := mkConfig 1; errorHandler := true;
     hubs := {[ "app" := {| hub := hub_ab; pending := [] |} ]} |}.
Definition b_closed : Booster :=
  {| config := mkConfig 1; errorHandler := true;
     hubs := {[ "app" := {| hub := hub_done; pending := [] |} ]} |}.
Definition to_a : envelope :=
  {| t := websocket.TextMessage; msg := []; userIds := ["a"]; filter := None |}.
Definition to_all : envelope :=
  {| t := websocket.TextMessage; msg := []; userIds := []; filter := None |}.

(** ** More of the session: parameters and the read loop *)

Section Params.
(** [s.params], written once by [HandleWs] and only read afterwards. *)
Variable params : Session -> gmap string string.
(** [strconv.Atoi] and [strconv.ParseInt(_, 10, 64)]: the number and the
    error they return. *)
Variable Atoi : string -> Z * option error.
Variable ParseInt : string -> Z * option error.

Definition GetParam (s : Session) (key : string) : string :=
  default "" (params s !! key).

Definition GetParamInt (s : Session) (key : string) : Z :=
  let val := GetParam s key in
  if decide (val = "") then 0 else fst (Atoi val).

Definition GetParamInt64 (s : Session) (key : string) : Z :=
  let val := GetParam s key in
  if decide (val = "") then 0 else fst (ParseInt val).

End Params.

Definition GetUserId (s : Session) : string := userId s.
Definition GetAppId (s : Session) : string := appId s.

(** What one [conn.ReadMessage] returns: a frame with its kind, or an
    error.  The library hands text and binary frames to the caller and
    reports the end of the connection, a close frame of the peer included,
    as an error. *)
Inductive read_result :=
| ReadOk (kind : Z) (message : list Byte.byte)
| ReadErr (err : error).

(** The calls of the read side, oldest first. *)
Inductive read_call :=
| SetReadLimit (s : Session)
| SetPongHandler (s : Session)
| SetReadDeadline (s : Session)
| CallMessageHandler (s : Session) (message : list Byte.byte).

(** The callbacks [HandleWs] and [readPump] reach besides [errorHandler]:
    [true] once the setter stored a function.  A call is recorded and taken
    to return; what the function does to the sessions is not part of this
    model. *)
Record Handlers := mkHandlers {
  messageHandler : bool;
  connectHandler : bool;
  disconnectHandler : bool
}.

Section ReadPump.
Variable b : Booster.
Variable hs : Handlers.

(** The loop of [readPump]; [reads] is what the connection returns to the
    successive [ReadMessage] calls, the loop waiting when there is no more.
    Calling a nil [messageHandler] panics. *)
Fixpoint readPump_loop (s : Session) (reads : list read_result) (calls : list read_call)
    (w : World) : outcome (list read_call * World) :=
  match reads with
  | [] => Blocks
  | ReadErr err :: _ =>
      w' ← call_errorHandler b s err w;
      Done (calls ++ [SetReadDeadline s], w')
  | ReadOk kind message :: rest =>
      if (kind =? websocket.CloseMessage)%Z then Done (calls ++ [SetReadDeadline s], w)
      else if messageHandler hs
      then readPump_loop s rest
             (calls ++ [SetReadDeadline s; CallMessageHandler s message]) w
      else Panics "invalid memory address or nil pointer dereference"
  end.

(** [readPump]: limit and pong handler first, the deferred [conn.Close]
    when the loop is left. *)
Definition readPump (s : Session) (reads : list read_result) (w : World)
  : outcome (list read_call * World) :=
  '(calls, w') ← readPump_loop s reads [SetReadLimit s; SetPongHandler s] w;
  Done (calls, emit [ConnClose s] w').

End ReadPump.

(** The payloads [messageHandler] was called with. *)
Definition handled (calls : list read_call) : list (list Byte.byte) :=
  omap (fun c => match c with CallMessageHandler _ m => Some m | _ => None end) calls.

(** A frame that is neither an error nor a close frame. *)
Definition data_frame (r : read_result) : Prop :=
  match r with
  | ReadOk kind _ => kind <> websocket.CloseMessage
  | ReadErr _ => False
  end.

Definition payload (r : read_result) : list Byte.byte :=
  match r with
  | ReadOk _ m => m
  | ReadErr _ => []
  end.

(** ** Predicates and helpers for the properties of queues and write loops *)

(** What [writeRaw] makes of an envelope when the connection accepts it. *)
Definition frame_events (s : Session) (e : envelope) : list event :=
  [SetWriteDeadline s; WriteMessage s (t e) (msg e)]
    ++ (if (t e =? websocket.CloseMessage)%Z then [ConnClose s] else []).

(** [writeMessage] for the envelopes of a list, one after the other. *)
Fixpoint enqueue_all (b : Booster) (s : Session) (es : list envelope) (w : World)
  : outcome World :=
  match es with
  | [] => Done w
  | e :: rest => w' ← writeMessage b s e w; enqueue_all b s rest w'
  end.

(** No queue holds more than its capacity. *)
Definition bounded (w : World) : Prop :=
  forall s, (length (Chan.buf (output (heap w s))) <= Chan.dataqsiz (output (heap w s)))%nat.

(** ** Predicates for the properties of the registry *)

(** Every session is listed under its own user. *)
Definition own_user (h : Hub) : Prop :=
  forall u ss s, sessions h !! u = Some ss -> s ∈ ss -> userId s = u.

(** The envelope without its filter. *)
Definition no_filter (e : envelope) : envelope :=
  {| t := t e; msg := msg e; userIds := userIds e; filter := None |}.

(** Register and unregister events as connections produce them: each
    session is registered at most once and unregistered at most once, and
    only after it was registered. *)
Definition lifecycles (evs : list reg_event) : Prop :=
  NoDup evs /\
  forall pre s post, evs = pre ++ Unreg s :: post -> Reg s ∈ pre.

(** ** More of the broker: shutdown and the connection handler *)

Section Shutdown.
Variable b : Booster.
Variable r : nat -> io.
(** For each appId, the order in which the range over its hub's registry
    yields the entries. *)
Variable orders : string -> list (string * list Session).

(** [for _, hub := range b.hubs { hub.Close() }]; the hubs are objects the
    map points to, so the map [m] gets the closed hub under the same key. *)
Fixpoint close_hubs (hubs_order : list (string * HubProc)) (m : gmap string HubProc)
    (w : World) : outcome (gmap string HubProc * World) :=
  match hubs_order with
  | [] => Done (m, w)
  | (app, p) :: rest =>
      '(p', w') ← Hub_Close b r (orders app) p w;
      close_hubs rest (<[app := p']> m) w'
  end.

(** [CloseBooster]; [hubs_order] is the order in which the range over
    [b.hubs] yields the hubs. *)
Definition CloseBooster (hubs_order : list (string * HubProc)) (w : World)
  : outcome (Booster * World) :=
  '(m, w') ← close_hubs hubs_order (hubs b) w;
  Done (set_hubs m b, w').

End Shutdown.

(** What [HandleWs] gets from its collaborators: the two identifiers the
    helper extracts, the error of the upgrade, the address of the session
    it allocates, and what the connection returns to the read loop. *)
Record ws_request := mkWsRequest {
  req_appId : string;
  req_userId : string;
  req_upgrade : option error;
  req_addr : nat;
  req_reads : list read_result
}.

Inductive ws_call :=
| LogError (what : string)
| CallConnectHandler (s : Session)
| GoWritePump (s : Session)
| CallDisconnectHandler (s : Session).

(** [HandleWs] as its goroutine executes it when the hub takes its two
    events at the select and nothing else reaches the hub in between.
    [req_appId] and [req_userId] are what [StringParam] returned for the two
    names, [req_upgrade] the error of [Upgrade]; [h.GetParams()] is taken to
    return (see [GetParams] for when it does), and the goroutine started for
    [writePump] is recorded, its turns being those of [writePump_step]. *)
Definition HandleWs (b : Booster) (hs : Handlers) (q : ws_request) (w : World)
  : outcome (Booster * World * list ws_call * list read_call) :=
  if decide (req_appId q = "" \/ req_userId q = "")
  then Done (b, w, [LogError "invalid params"], [])
  else
    let '(b, p) := getHub b (req_appId q) in
    if Closed (hub p) then Done (b, w, [LogError "hub already closed"], [])
    else
      match req_upgrade q with
      | Some _ => Done (b, w, [LogError "upgrade fail"], [])
      | None =>
          let s := mkSession (req_addr q) (req_userId q) (req_appId q) in
          let w := update s (fun _ => new_session b) w in
          let connect := if connectHandler hs then [CallConnectHandler s] else [] in
          p ← hub_recv [] (EvRegister s) p;
          '(p, w) ← hub_step b p w;
          '(reads, w) ← readPump b hs s (req_reads q) w;
          p ← hub_recv [] (EvUnRegister s) p;
          '(p, w) ← hub_step b p w;
          let disconnect := if disconnectHandler hs then [CallDisconnectHandler s] else [] in
          Done (set_hubs (<[req_appId q := p]> (hubs b)) b, w,
                connect ++ [GoWritePump s] ++ disconnect, reads)
      end.

Definition hubproc_done : HubProc := {| hub := hub_done; pending := [] |}.

(** ** The request helper *)

Section Helper.
(** The request as the web framework presents it: the method, the lookups
    [c.Query] and [c.PostForm], and the parsed forms [r.Form] and
    [r.PostForm]. *)
Variable Method : string.
Variable Query : string -> string.
Variable PostForm : string -> string.
Variable Form : gmap string (list string).
Variable PostFormValues : gmap string (list string).

Definition StringParam (param : string) : string :=
  if decide (param = "") then ""
  else if decide (Method = "GET") then Query param
  else PostForm param.

Definition StringParamDefault (param defaultVal : string) : string :=
  let v := StringParam param in
  if decide (v = "") then defaultVal else v.

(** [params[key] = val[0]] for every entry of the form; indexing an empty
    slice panics. *)
Definition GetParams : outcome (gmap string string) :=
  let form := if decide (Method = "GET") then Form else PostFormValues in
  if bool_decide (map_Forall (fun _ val => val <> []) form)
  then Done (hd "" <$> form)
  else Panics "index out of range [0] with length 0".

End Helper.

(** ** Basic facts *)

Lemma heap_update_eq s f w : heap (update s f w) s = f (heap w s).
Proof. unfold update; simpl. apply fn_lookup_insert. Qed.

Lemma heap_update_ne s s' f w : s <> s' -> heap (update s f w) s' = heap w s'.
Proof. intros Hne. unfold update; simpl. by apply fn_lookup_insert_ne. Qed.

Lemma log_update s f w : log (update s f w) = log w.
Proof. reflexivity. Qed.

Lemma heap_emit evs w : heap (emit evs w) = heap w.
Proof. reflexivity. Qed.

(** [writeMessage] by cases on the state of the queue. *)
Lemma writeMessage_closed b s e w :
  Chan.closed (output (heap w s)) = true ->
  writeMessage b s e w = Done (emit [Println "send on closed channel"] w).
Proof.
  intros Hc. unfold writeMessage, writeMessage_select, Chan.send.
  by rewrite Hc.
Qed.

Lemma writeMessage_room b s e w :
  Chan.closed (output (heap w s)) = false ->
  Chan.full (output (heap w s)) = false ->
  writeMessage b s e w =
    Done (update s (set_output (Chan.put e (output (heap w s)))) w).
Proof.
  intros Hc Hf. unfold writeMessage, writeMessage_select, Chan.send.
  by rewrite Hc, Hf.
Qed.

Lemma writeMessage_full b s e w :
  Chan.closed (output (heap w s)) = false ->
  Chan.full (output (heap w s)) = true ->
  writeMessage b s e w =
    Done (emit [if errorHandler b
                then CallErrorHandler s (ErrChannelFull e)
                else Println "invalid memory address or nil pointer dereference"] w).
Proof.
  intros Hc Hf. unfold writeMessage, writeMessage_select, Chan.send, call_errorHandler.
  rewrite Hc, Hf. simpl. by destruct (errorHandler b).
Qed.

(** [writeMessage] always returns: it neither parks nor panics. *)
Lemma writeMessage_returns b s e w : exists w', writeMessage b s e w = Done w'.
Proof.
  destruct (Chan.closed (output (heap w s))) eqn:Hc.
  - rewrite writeMessage_closed by done. eauto.
  - destruct (Chan.full (output (heap w s))) eqn:Hf.
    + rewrite writeMessage_full by done. eauto.
    + rewrite writeMessage_room by done. eauto.
Qed.

Lemma writeMessage_contract b s e w :
  errorHandler b = true ->
  Chan.closed (output (heap w s)) = false ->
  enqueue_contract (writeMessage b s e) s e w.
Proof.
  intros Hh Hc. unfold enqueue_contract.
  destruct (Chan.full (output (heap w s))) eqn:Hf.
  - rewrite writeMessage_full, Hh by done. eexists; split; [done|].
    repeat split; done.
  - rewrite writeMessage_room by done. eexists; split; [done|].
    split; [intros s' Hne; by apply heap_update_ne|].
    split; [apply heap_update_eq | done].
Qed.

(** ** C3: the write operations *)

(** C3 (as amended): for a session whose outbound queue is open, and with an
    error callback installed, [Write] and [WriteBinary] return to the caller
    and touch no other session; on a full queue the session is left as it
    was and the error callback is called exactly once with the "channel
    full" error naming the dropped envelope; on a queue with room the
    envelope is appended and nothing is reported.  On a closed queue the
    envelope is dropped and the only trace is the recovered panic's line. *)
Theorem write_on_open_queue b s m w :
  (errorHandler b = true ->
   Chan.closed (output (heap w s)) = false ->
   enqueue_contract (Write b s m) s (text_envelope m) w /\
   enqueue_contract (WriteBinary b s m) s (binary_envelope m) w) /\
  (Chan.closed (output (heap w s)) = true ->
   Write b s m w = Done (emit [Println "send on closed channel"] w) /\
   WriteBinary b s m w = Done (emit [Println "send on closed channel"] w)).
Proof.
  split.
  - intros Hh Hc. split; by apply writeMessage_contract.
  - intros Hc. split; by apply writeMessage_closed.
Qed.

Lemma write_on_open_queue_witness :
  enqueue_contract (Write b_on s1 []) s1 (text_envelope []) (world_of st_full) /\
  enqueue_contract (WriteBinary b_on s1 []) s1 (binary_envelope []) (world_of st_empty) /\
  Write b_on s1 [] (world_of st_closed)
    = Done (emit [Println "send on closed channel"] (world_of st_closed)).
Proof.
  split; [|split].
  - apply (write_on_open_queue b_on s1 [] (world_of st_full)); reflexivity.
  - apply (write_on_open_queue b_on s1 [] (world_of st_empty)); reflexivity.
  - apply (write_on_open_queue b_on s1 [] (world_of st_closed)); reflexivity.
Defined.

(** C3 as stated fails: on a queue that was closed (and has room) the
    envelope is not appended, and on a full queue nothing is reported when
    no error callback was installed. *)
Lemma write_contract_fails :
  ~ enqueue_contract (Write b_on s1 []) s1 (text_envelope []) (world_of st_closed) /\
  ~ enqueue_contract (Write b_off s1 []) s1 (text_envelope []) (world_of st_full).
Proof.
  split.
  - intros (w' & Hrun & _ & Hq). vm_compute in Hrun.
    injection Hrun as <-. simpl in Hq. destruct Hq as [Hq _]. discriminate Hq.
  - intros (w' & Hrun & _ & Hq). vm_compute in Hrun.
    injection Hrun as <-. simpl in Hq. destruct Hq as [_ Hq]. discriminate Hq.
Qed.

(** ** C9: the key-value store *)

Lemma Get_Set s key val w : Get s key (Set_ s key val w) = val.
Proof.
  unfold Get, Set_. rewrite heap_update_eq. simpl. by rewrite lookup_insert_eq.
Qed.

(** C9: whatever the store of a session holds, [MustGet] panics on an
    absent key, and [GetString], [GetInt] and [GetInt64] return the zero
    value on an absent key or on a value of another type, and the stored
    value when it has their type. *)
Theorem getters_zero_or_stored s key w :
  (keys (heap w s) !! key = None ->
     MustGet s key w = Panics ("Session MustGet:" +:+ key +:+ " fail") /\
     GetString s key w = "" /\ GetInt s key w = 0 /\ GetInt64 s key w = 0) /\
  (forall v, keys (heap w s) !! key = Some (String_ v) ->
     GetString s key w = v /\ GetInt s key w = 0 /\ GetInt64 s key w = 0) /\
  (forall v, keys (heap w s) !! key = Some (Int v) ->
     GetInt s key w = v /\ GetString s key w = "" /\ GetInt64 s key w = 0) /\
  (forall v, keys (heap w s) !! key = Some (Int64 v) ->
     GetInt64 s key w = v /\ GetString s key w = "" /\ GetInt s key w = 0) /\
  (forall v, keys (heap w s) !! key = Some v ->
     (forall x, v <> String_ x) -> (forall x, v <> Int x) -> (forall x, v <> Int64 x) ->
     GetString s key w = "" /\ GetInt s key w = 0 /\ GetInt64 s key w = 0).
Proof.
  unfold MustGet, GetString, GetInt, GetInt64, Get.
  split; [|split; [|split; [|split]]].
  - intros ->. done.
  - intros v ->. done.
  - intros v ->. done.
  - intros v ->. done.
  - intros v -> Hs Hi Hl. destruct v as [|x|x|x|x]; simpl; try done.
    + by destruct (Hs x).
    + by destruct (Hi x).
    + by destruct (Hl x).
Qed.

Lemma getters_zero_or_stored_witness :
  MustGet s1 "room" (world_of st_empty) = Panics "Session MustGet:room fail" /\
  GetInt s1 "n" (Set_ s1 "n" (Int 7) (world_of st_empty)) = 7 /\
  GetString s1 "n" (Set_ s1 "n" (Int 7) (world_of st_empty)) = "" /\
  GetInt64 s1 "n" (Set_ s1 "n" (Other 0) (world_of st_empty)) = 0.
Proof.
  pose proof (getters_zero_or_stored s1 "room" (world_of st_empty)) as (Habs & _).
  pose proof (getters_zero_or_stored s1 "n" (Set_ s1 "n" (Int 7) (world_of st_empty)))
    as (_ & _ & Hint & _).
  pose proof (getters_zero_or_stored s1 "n" (Set_ s1 "n" (Other 0) (world_of st_empty)))
    as (_ & _ & _ & _ & Hoth).
  destruct (Habs eq_refl) as (Hm & _).
  destruct (Hint 7 eq_refl) as (Hi & Hs & _).
  destruct (Hoth (Other 0) eq_refl) as (_ & _ & Hl); [discriminate ..|].
  exact (conj Hm (conj Hi (conj Hs Hl))).
Defined.

(** ** C1: whom a broadcast reaches *)

Lemma elem_of_flat_map {A B} (f : A -> list B) (l : list A) (y : B) :
  y ∈ flat_map f l <-> exists x, x ∈ l /\ y ∈ f x.
Proof.
  rewrite list_elem_of_In, in_flat_map. split.
  - intros (x & Hx & Hy). exists x. by rewrite !list_elem_of_In.
  - intros (x & Hx & Hy). exists x. by rewrite <- !list_elem_of_In.
Qed.

Lemma rejected_false e s : rejected e s = false <-> accepted e s.
Proof.
  unfold rejected, accepted. destruct (filter e) as [fn|]; [|done].
  by destruct (fn s).
Qed.

Lemma elem_of_fan_out e ss op :
  op ∈ fan_out e ss <-> exists s, op = Send s e /\ s ∈ ss /\ accepted e s.
Proof.
  unfold fan_out. rewrite elem_of_flat_map. split.
  - intros (s & Hs & Hop). exists s.
    destruct (rejected e s) eqn:Hr; [by apply elem_of_nil in Hop|].
    apply list_elem_of_singleton in Hop. by rewrite <- rejected_false.
  - intros (s & -> & Hs & Hacc). exists s. split; [done|].
    apply rejected_false in Hacc. rewrite Hacc. by apply list_elem_of_singleton.
Qed.

Lemma elem_of_case_broadcast order h e op :
  Closed h = false ->
  order ≡ₚ map_to_list (sessions h) ->
  op ∈ case_broadcast order h e <->
  exists s u ss, op = Send s e /\ sessions h !! u = Some ss /\ s ∈ ss /\ accepted e s /\
                 (userIds e = [] \/ u ∈ userIds e).
Proof.
  intros Hopen Hperm. unfold case_broadcast. rewrite Hopen.
  destruct (userIds e) as [|u0 us] eqn:Hus; cbn [length Nat.ltb Nat.leb].
  - rewrite elem_of_flat_map. split.
    + intros ([u ss] & Hin & Hop). rewrite Hperm in Hin.
      apply elem_of_map_to_list in Hin. apply elem_of_fan_out in Hop as (s & -> & Hs & Hacc).
      exists s, u, ss. eauto 10.
    + intros (s & u & ss & -> & Hu & Hs & Hacc & _). exists (u, ss). split.
      * rewrite Hperm. by apply elem_of_map_to_list.
      * apply elem_of_fan_out. eauto.
  - rewrite elem_of_flat_map. split.
    + intros (u & Hu & Hop). destruct (sessions h !! u) as [ss|] eqn:Hl;
        [|by apply elem_of_nil in Hop].
      apply elem_of_fan_out in Hop as (s & -> & Hs & Hacc).
      exists s, u, ss. eauto 10.
    + intros (s & u & ss & -> & Hl & Hs & Hacc & [Hnil|Hu]); [done|].
      exists u. split; [done|]. rewrite Hl. apply elem_of_fan_out. eauto.
Qed.

Lemma elem_of_targets ops s : s ∈ targets ops <-> exists e, Send s e ∈ ops.
Proof.
  unfold targets. rewrite list_elem_of_omap. split.
  - intros (op & Hop & Heq). destruct op; try discriminate.
    injection Heq as ->. eauto.
  - intros (e & He). exists (Send s e). done.
Qed.

Lemma sends_fmap_targets e ops :
  (forall op, op ∈ ops -> exists s, op = Send s e) ->
  ops = (fun s => Send s e) <$> targets ops.
Proof.
  induction ops as [|op ops IH]; intros Hall; [done|].
  destruct (Hall op) as (s & ->); [by left|].
  simpl. f_equal. apply IH. intros op' Hop'. apply Hall. by right.
Qed.

Lemma set_output_put_n_0 e st : set_output (Chan.put_n 0 e (output st)) st = st.
Proof.
  destruct st as [[q n c] k p]. unfold set_output, Chan.put_n. simpl.
  by rewrite app_nil_r.
Qed.

Lemma set_output_put_n_S k e st :
  set_output (Chan.put_n k e (output (set_output (Chan.put e (output st)) st)))
             (set_output (Chan.put e (output st)) st)
  = set_output (Chan.put_n (S k) e (output st)) st.
Proof.
  destruct st as [[q n c] ks p]. unfold set_output, Chan.put_n, Chan.put. simpl.
  by rewrite <- app_assoc.
Qed.

(** A blocking send completes when the queue is open and has room. *)
Lemma exec_send_room b s e h w :
  Chan.closed (output (heap w s)) = false ->
  Chan.full (output (heap w s)) = false ->
  exec_op b (Send s e) h w
    = Done (h, update s (set_output (Chan.put e (output (heap w s)))) w).
Proof. intros Hc Hf. unfold exec_op, Chan.send. by rewrite Hc, Hf. Qed.

(** On a full open queue it parks the loop. *)
Lemma exec_send_full b s e h w :
  Chan.closed (output (heap w s)) = false ->
  Chan.full (output (heap w s)) = true ->
  exec_op b (Send s e) h w = Blocks.
Proof. intros Hc Hf. unfold exec_op, Chan.send. by rewrite Hc, Hf. Qed.

(** The sends of a case complete one after another when every target has
    room for all the copies it is due. *)
Lemma hub_run_sends b e ss : forall h w,
  (forall s, s ∈ ss ->
     Chan.closed (output (heap w s)) = false /\
     (length (Chan.buf (output (heap w s))) + count_occ Session_eq_dec ss s
        <= Chan.dataqsiz (output (heap w s)))%nat) ->
  exists w',
    hub_run b (length ss) {| hub := h; pending := (fun s => Send s e) <$> ss |} w
      = ({| hub := h; pending := [] |}, w') /\
    log w' = log w /\
    forall s, heap w' s
              = set_output (Chan.put_n (count_occ Session_eq_dec ss s) e (output (heap w s)))
                           (heap w s).
Proof.
  induction ss as [|a ss IH]; intros h w Hroom.
  - exists w. split; [done|]. split; [done|]. intros s. simpl.
    by rewrite set_output_put_n_0.
  - destruct (Hroom a) as [Hc Hlen]; [by left|].
    rewrite count_occ_cons_eq in Hlen by done.
    assert (Hf : Chan.full (output (heap w a)) = false).
    { unfold Chan.full. apply Nat.leb_gt. lia. }
    simpl length. simpl fmap. cbn [hub_run hub_step pending hub].
    rewrite exec_send_room by done. cbn [mbind outcome_bind].
    set (w1 := update a (set_output (Chan.put e (output (heap w a)))) w).
    destruct (IH h w1) as (w' & Hrun & Hlog & Hheap).
    { intros s Hs. destruct (decide (a = s)) as [<-|Hne].
      - unfold w1. rewrite heap_update_eq. simpl. split; [done|].
        rewrite length_app. simpl. lia.
      - unfold w1. rewrite heap_update_ne by done.
        destruct (Hroom s) as [Hc' Hlen']; [by right|].
        rewrite count_occ_cons_neq in Hlen' by done. done. }
    exists w'. split; [done|]. split; [by rewrite Hlog|].
    intros s. rewrite Hheap. destruct (decide (a = s)) as [<-|Hne].
    + unfold w1. rewrite heap_update_eq, count_occ_cons_eq by done.
      apply set_output_put_n_S.
    + unfold w1. rewrite heap_update_ne, count_occ_cons_neq by done. done.
Qed.

(** C1: while the hub is open, the envelope of a broadcast is sent to the
    sessions the filter accepts (all when there is none) among those listed
    under the envelope's users when it names some (users without an entry
    contribute nothing), and among all registered sessions when it names
    none; only these are sent to, and when their queues have room every one
    of them holds the envelope afterwards and no other session changed. *)
Theorem broadcast_reaches_exactly b order h e :
  Closed h = false ->
  order ≡ₚ map_to_list (sessions h) ->
  let ops := Run_case order h (EvBroadcast e) in
  (forall op, op ∈ ops -> exists s, op = Send s e) /\
  (userIds e <> [] ->
   forall s, s ∈ targets ops <->
     accepted e s /\ exists u ss, u ∈ userIds e /\ sessions h !! u = Some ss /\ s ∈ ss) /\
  (userIds e = [] ->
   forall s, s ∈ targets ops <->
     accepted e s /\ exists u ss, sessions h !! u = Some ss /\ s ∈ ss) /\
  (forall w,
     (forall s, s ∈ targets ops ->
        Chan.closed (output (heap w s)) = false /\
        (length (Chan.buf (output (heap w s))) + count_occ Session_eq_dec (targets ops) s
           <= Chan.dataqsiz (output (heap w s)))%nat) ->
     exists w',
       hub_run b (length ops) {| hub := h; pending := ops |} w
         = ({| hub := h; pending := [] |}, w') /\
       log w' = log w /\
       forall s, heap w' s
                 = set_output (Chan.put_n (count_occ Session_eq_dec (targets ops) s) e
                                 (output (heap w s))) (heap w s)).
Proof.
  intros Hopen Hperm ops. unfold ops. cbn [Run_case].
  assert (Hall : forall op, op ∈ case_broadcast order h e -> exists s, op = Send s e).
  { intros op Hop. apply elem_of_case_broadcast in Hop as (s & _ & _ & -> & _); eauto. }
  assert (Htg : forall s, s ∈ targets (case_broadcast order h e) <->
            exists u ss, sessions h !! u = Some ss /\ s ∈ ss /\ accepted e s /\
                         (userIds e = [] \/ u ∈ userIds e)).
  { intros s. rewrite elem_of_targets. split.
    - intros (e' & He'). apply elem_of_case_broadcast in He' as (s' & u & ss & Heq & H);
        [|done..]. injection Heq as -> ->. eauto.
    - intros (u & ss & H). exists e. apply elem_of_case_broadcast; [done..|]. eauto 10. }
  split; [exact Hall|]. split; [|split].
  - intros Hne s. rewrite Htg. split.
    + intros (u & ss & Hl & Hs & Hacc & [Hnil|Hu]); [done|]. eauto 10.
    + intros (Hacc & u & ss & Hu & Hl & Hs). eauto 10.
  - intros Hnil s. rewrite Htg. split.
    + intros (u & ss & Hl & Hs & Hacc & _). eauto 10.
    + intros (Hacc & u & ss & Hl & Hs). eauto 10.
  - intros w Hroom.
    destruct (hub_run_sends b e _ h w Hroom) as (w' & Hrun & Hlog & Hheap).
    rewrite <- (sends_fmap_targets e _ Hall) in Hrun.
    replace (length (targets (case_broadcast order h e)))
      with (length (case_broadcast order h e)) in Hrun; [by eauto|].
    rewrite (sends_fmap_targets e _ Hall) at 1. by rewrite length_fmap.
Qed.

Lemma broadcast_reaches_exactly_witness :
  let order := map_to_list (sessions hub_ab) in
  (forall s, s ∈ targets (Run_case order hub_ab (EvBroadcast to_a)) <->
     accepted to_a s /\
     exists u ss, u ∈ userIds to_a /\ sessions hub_ab !! u = Some ss /\ s ∈ ss) /\
  (forall s, s ∈ targets (Run_case order hub_ab (EvBroadcast to_all)) <->
     accepted to_all s /\ exists u ss, sessions hub_ab !! u = Some ss /\ s ∈ ss) /\
  exists w',
    hub_run b_on 2 {| hub := hub_ab; pending := Run_case order hub_ab (EvBroadcast to_a) |}
      (world_of st_empty) = ({| hub := hub_ab; pending := [] |}, w') /\
    Chan.buf (output (heap w' s1)) = [to_a] /\
    Chan.buf (output (heap w' s2)) = [to_a] /\
    Chan.buf (output (heap w' s3)) = [].
Proof.
  intros order.
  pose proof (broadcast_reaches_exactly b_on order hub_ab to_a eq_refl (reflexivity _))
    as (_ & Hto & _ & Hrun).
  pose proof (broadcast_reaches_exactly b_on order hub_ab to_all eq_refl (reflexivity _))
    as (_ & _ & Hall & _).
  split; [apply Hto; discriminate|]. split; [by apply Hall|].
  destruct (Hrun (world_of st_empty)) as (w' & Hw' & _ & Hheap).
  - change (targets (Run_case order hub_ab (EvBroadcast to_a))) with [s1; s2].
    intros s Hs. split; [reflexivity|].
    apply elem_of_cons in Hs as [->|Hs]; [vm_compute; lia|].
    apply list_elem_of_singleton in Hs as ->. vm_compute; lia.
  - exists w'. split; [exact Hw'|].
    rewrite !Hheap. repeat split.
Defined.

(** ** C2: the hub's sends are blocking *)

(** C2: the hub forwards a broadcast envelope with a plain [s.output <- e]
    and not with [writeMessage].  With session [s1] registered under "a" and
    its queue full, the loop parks on that send: no statement of the case
    completes, nothing is dropped and nothing is reported, whereas
    [writeMessage] on the same state returns after one "channel full"
    report.  When the write loop of [s1] has left its loop after a write
    error, neither the hub nor that write loop can move again. *)
Theorem broadcast_send_parks_on_full_queue :
  let w := world_of st_full in
  let w' := world_of st_full_parked in
  exists p,
    hub_recv [("a", [s1])] (EvBroadcast to_a) {| hub := hub_a; pending := [] |} = Done p /\
    pending p = [Send s1 to_a] /\
    hub_step b_on p w = Blocks /\
    (forall n, hub_run b_on n p w = (p, w)) /\
    writeMessage b_on s1 to_a w = Done (emit [CallErrorHandler s1 (ErrChannelFull to_a)] w) /\
    hub_step b_on p w' = Blocks /\
    (forall sel r, writePump_step b_on sel r s1 w' = Blocks).
Proof.
  intros w w'. eexists. split; [reflexivity|]. split; [reflexivity|].
  split; [reflexivity|]. split; [intros [|n]; reflexivity|].
  split; [reflexivity|]. split; [reflexivity|]. intros sel r. reflexivity.
Qed.

(** ** C7: the close envelope in the write loop *)

(** After a frame went out without error the loop is back at its select,
    whatever the kind of the frame. *)
Lemma writePump_step_delivered b r s w message rest :
  pump (heap w s) = InLoop ->
  Chan.buf (output (heap w s)) = message :: rest ->
  snd (writeRaw r s message w) = None ->
  exists w', writePump_step b CaseOutput r s w = Done w' /\ pump (heap w' s) = InLoop.
Proof.
  intros Hp Hb Hok. unfold writePump_step, Chan.recv. rewrite Hp, Hb.
  cbn [mbind outcome_bind]. unfold writeRaw in *.
  destruct (write_err r); [done|].
  destruct (t message =? websocket.CloseMessage)%Z; simpl in *.
  - rewrite Hok. eexists; split; [done|]. simpl. by rewrite fn_lookup_insert.
  - eexists; split; [done|]. simpl. by rewrite fn_lookup_insert.
Qed.

(** C7: [Close] puts the close envelope on the queue through
    [writeMessage]; when the write loop takes it from the queue and the
    connection accepts the frame, the close frame is sent and the connection
    closed, and the loop is at its select again: it has not terminated, and
    its next ping goes to the closed connection. *)
Theorem close_envelope_leaves_write_loop_running :
  exists w1 w2 w3,
    Close b_on s1 (world_of st_empty) = Done w1 /\
    Close b_on s1 (world_of st_empty) = writeMessage b_on s1 close_envelope (world_of st_empty) /\
    Chan.buf (output (heap w1 s1)) = [close_envelope] /\
    writePump_step b_on CaseOutput ok_io s1 w1 = Done w2 /\
    log w2 = [SetWriteDeadline s1; WriteMessage s1 websocket.CloseMessage []; ConnClose s1] /\
    pump (heap w2 s1) = InLoop /\
    writePump_step b_on CaseTicker broken_io s1 w2 = Done w3 /\
    pump (heap w3 s1) = InLoop.
Proof.
  do 3 eexists. split; [reflexivity|]. split; [reflexivity|].
  split; [reflexivity|]. split; [reflexivity|]. split; [reflexivity|].
  split; [reflexivity|]. split; reflexivity.
Qed.

(** ** C8: transport errors in the write loop *)

(** C8 (as amended): with an error callback installed, an error the
    connection returns for a frame taken from the queue is reported by
    exactly one call of the callback and ends the loop.  The error of a
    keepalive ping is dropped: the callback is not called and the loop goes
    on.  The error of the close frame sent on a closed, drained queue is
    dropped as well, the loop ending in any case. *)
Theorem write_errors_in_write_loop b r s w :
  pump (heap w s) = InLoop ->
  (errorHandler b = true ->
   forall message rest, Chan.buf (output (heap w s)) = message :: rest ->
     reports_and_stops b CaseOutput r s w) /\
  (exists w', writePump_step b CaseTicker r s w = Done w' /\
     log w' = log w ++ [SetWriteDeadline s; WriteMessage s websocket.PingMessage []] /\
     pump (heap w' s) = InLoop) /\
  (Chan.buf (output (heap w s)) = [] -> Chan.closed (output (heap w s)) = true ->
   exists w' evs, writePump_step b CaseOutput r s w = Done w' /\
     log w' = log w ++ evs /\ error_calls evs = [] /\
     pump (heap w' s) = SendingExited).
Proof.
  intros Hp. split; [|split].
  - intros Hh message rest Hb err Herr.
    unfold writePump_step, Chan.recv, writeRaw, call_errorHandler.
    rewrite Hp, Hb, Herr, Hh. cbn [mbind outcome_bind].
    eexists. exists [SetWriteDeadline s; WriteMessage s (t message) (msg message);
                     CallErrorHandler s err].
    split; [done|]. simpl. rewrite <- app_assoc. split; [done|]. split; [done|].
    by rewrite fn_lookup_insert.
  - unfold writePump_step, ping, writeRaw. rewrite Hp.
    eexists. split; [done|]. by destruct (write_err r).
  - intros Hb Hc. unfold writePump_step, Chan.recv, close, writeRaw.
    rewrite Hp, Hb, Hc. cbn [mbind outcome_bind].
    destruct (write_err r); simpl.
    + eexists. eexists. split; [done|]. simpl. split; [done|]. split; [done|].
      by rewrite fn_lookup_insert.
    + eexists. exists [SetWriteDeadline s; WriteMessage s websocket.CloseMessage [];
                       ConnClose s].
      split; [done|]. simpl. rewrite <- app_assoc. split; [done|]. split; [done|].
      by rewrite fn_lookup_insert.
Qed.

Lemma write_errors_in_write_loop_witness :
  reports_and_stops b_on CaseOutput broken_io s1 (world_of st_full) /\
  exists w', writePump_step b_on CaseTicker broken_io s1 (world_of st_full) = Done w' /\
    pump (heap w' s1) = InLoop.
Proof.
  pose proof (write_errors_in_write_loop b_on broken_io s1 (world_of st_full) eq_refl)
    as (Hq & (w' & Hstep & _ & Hp) & _).
  split.
  - exact (Hq eq_refl (text_envelope []) [] eq_refl).
  - exists w'. by split.
Defined.

(** C8 as stated fails: a ping the connection refuses is neither reported
    nor the end of the loop. *)
Lemma ping_error_not_reported :
  ~ reports_and_stops b_on CaseTicker broken_io s1 (world_of st_empty).
Proof.
  intros H. destruct (H (ErrTransport "broken pipe") eq_refl) as (w' & evs & Hrun & _ & _ & Hp).
  vm_compute in Hrun. injection Hrun as <-. discriminate Hp.
Qed.

(** ** C6 and C10: [PushMessage] *)

Lemma getHub_known b app p : hubs b !! app = Some p -> getHub b app = (b, p).
Proof. intros Hp. unfold getHub. by rewrite Hp. Qed.

Lemma getHub_new b app :
  hubs b !! app = None ->
  getHub b app
    = (set_hubs (<[app := {| hub := NewHub; pending := [] |}]> (hubs b)) b,
       {| hub := NewHub; pending := [] |}).
Proof. intros Hp. unfold getHub. by rewrite Hp. Qed.



(** C10: for an appId without a hub, [PushMessage] does not fail.  [getHub]
    makes a new hub and stores it under the appId in the broker's map,
    leaving the hubs of other appIds alone; the hub is open, has an empty
    registry and its loop is at the select.  [PushMessage] returns no error
    and leaves the broker as [getHub] made it; the loop has no send to make
    for the envelope, and however long it runs no session changes. *)
Theorem push_message_creates_hub order b app users m fn :
  hubs b !! app = None ->
  order ≡ₚ map_to_list (sessions NewHub) ->
  let new := {| hub := NewHub; pending := [] |} in
  let message :=
    {| t := websocket.TextMessage; msg := m; userIds := users; filter := fn |} in
  (getHub b app).2 = new /\
  hubs (getHub b app).1 !! app = Some new /\
  (forall app', app' <> app -> hubs (getHub b app).1 !! app' = hubs b !! app') /\
  hubs (getHub b app).1 = <[app := new]> (hubs b) /\
  PushMessage order b app users m fn = Done ((getHub b app).1, None) /\
  Closed NewHub = false /\ exited NewHub = false /\ sessions NewHub = ∅ /\
  Run_case order NewHub (EvBroadcast message) = [] /\
  (forall n w,
     hub_run b n {| hub := NewHub; pending := Run_case order NewHub (EvBroadcast message) |} w
       = (new, w)).
Proof.
  intros Hnone Hperm new message.
  assert (Hnil : forall e, Run_case order NewHub (EvBroadcast e) = []).
  { intros e. destruct (Run_case order NewHub (EvBroadcast e)) as [|op ops] eqn:Hops; [done|].
    assert (Hop : op ∈ case_broadcast order NewHub e) by (simpl in Hops; rewrite Hops; by left).
    apply elem_of_case_broadcast in Hop as (s & u & ss & _ & Hl & _); [|done..].
    simpl in Hl. by rewrite lookup_empty in Hl. }
  unfold PushMessage. rewrite (getHub_new b app Hnone). fold new. cbn [fst snd].
  split; [done|]. cbn [hubs set_hubs].
  split; [apply lookup_insert_eq|].
  split; [intros app' Hne; by apply lookup_insert_ne|].
  split; [done|]. split.
  { change (Closed (hub new)) with false. cbv iota.
    unfold hub_recv. cbn [hub exited NewHub pending new mbind outcome_bind].
    fold message. rewrite Hnil. fold new. unfold set_hubs. cbn [hubs config errorHandler].
    by rewrite insert_insert_eq. }
  split; [done|]. split; [done|]. split; [done|]. split; [apply Hnil|].
  intros n w. rewrite Hnil. fold new. by destruct n.
Qed.

Lemma push_message_creates_hub_witness :
  let new := {| hub := NewHub; pending := [] |} in
  hubs b_on !! "app" = None /\
  hubs (getHub b_on "app").1 !! "app" = Some new /\
  PushMessage [] b_on "app" ["a"] [] None = Done ((getHub b_on "app").1, None) /\
  hub_run b_on 3 new (world_of st_empty) = (new, world_of st_empty).
Proof.
  intros new.
  destruct (push_message_creates_hub [] b_on "app" ["a"] [] None eq_refl (reflexivity _))
    as (_ & Hstored & _ & _ & Hpush & _ & _ & _ & Hnil & Hrun).
  split; [reflexivity|]. split; [exact Hstored|]. split; [exact Hpush|].
  specialize (Hrun 3%nat (world_of st_empty)). rewrite Hnil in Hrun. exact Hrun.
Defined.

(** ** C5: the registry under register and unregister *)

Lemma index_of_None s ss : index_of s ss = None <-> s ∉ ss.
Proof.
  induction ss as [|s1 ss IH]; simpl.
  - split; [intros _; apply not_elem_of_nil | done].
  - rewrite not_elem_of_cons. destruct (decide (s1 = s)) as [->|Hne].
    + split; [done | intros [? _]; done].
    + destruct (index_of s ss); simpl.
      * split; [done|]. intros [_ Hn]. by apply IH in Hn.
      * split; [|done]. intros _. split; [congruence | by apply IH].
Qed.

Lemma index_of_Some s ss i :
  index_of s ss = Some i ->
  exists l1 l2, ss = l1 ++ s :: l2 /\ (s ∉ l1) /\ take i ss ++ drop (S i) ss = l1 ++ l2.
Proof.
  revert i. induction ss as [|s1 ss IH]; intros i; simpl; [done|].
  destruct (decide (s1 = s)) as [->|Hne].
  - intros [= <-]. exists [], ss. split; [done|]. split; [apply not_elem_of_nil|].
    simpl. by rewrite drop_0.
  - destruct (index_of s ss) as [j|]; simpl; [|done]. intros [= <-].
    destruct (IH j eq_refl) as (l1 & l2 & -> & Hnot & Htd).
    exists (s1 :: l1), l2. split; [done|]. split.
    + rewrite not_elem_of_cons. split; [congruence | done].
    + simpl. f_equal. exact Htd.
Qed.

Lemma index_of_split s l1 l2 :
  s ∉ l1 -> index_of s (l1 ++ s :: l2) = Some (length l1).
Proof.
  induction l1 as [|a l1 IH]; simpl; intros Hnot.
  - by rewrite decide_True.
  - apply not_elem_of_cons in Hnot as [Hne Hnot].
    rewrite decide_False by congruence. by rewrite IH.
Qed.

Lemma Closed_register h s : Closed (register h s) = Closed h.
Proof. unfold register. by destruct (Closed h) eqn:Hc. Qed.

Lemma Closed_unRegister h s : Closed (unRegister h s) = Closed h.
Proof.
  unfold unRegister. destruct (Closed h) eqn:Hc; [done|].
  destruct (sessions h !! userId s) as [ss|]; [|done].
  by destruct (index_of s ss).
Qed.

Lemma sessions_register h s :
  Closed h = false ->
  sessions (register h s)
    = <[userId s := default [] (sessions h !! userId s) ++ [s]]> (sessions h).
Proof.
  intros Hopen. unfold register. rewrite Hopen. simpl.
  destruct (sessions h !! userId s) as [ss|] eqn:Hl.
  - by rewrite Hl.
  - by rewrite lookup_insert_eq, insert_insert_eq.
Qed.

Lemma sessions_unRegister h s l1 l2 :
  Closed h = false ->
  sessions h !! userId s = Some (l1 ++ s :: l2) ->
  s ∉ l1 ->
  sessions (unRegister h s) = <[userId s := l1 ++ l2]> (sessions h).
Proof.
  intros Hopen Hl Hnot. unfold unRegister. rewrite Hopen, Hl.
  rewrite index_of_split by done. simpl. f_equal.
  rewrite take_app_length. rewrite (cons_middle s), app_assoc.
  rewrite drop_app_length'; [done|]. rewrite length_app. simpl. lia.
Qed.

Lemma unRegister_absent h s :
  (sessions h !! userId s = None \/
   exists ss, sessions h !! userId s = Some ss /\ s ∉ ss) ->
  unRegister h s = h.
Proof.
  intros Habs. unfold unRegister. destruct (Closed h); [done|].
  destruct Habs as [->|(ss & -> & Hnot)]; [done|].
  apply index_of_None in Hnot. by rewrite Hnot.
Qed.

Lemma listed_register h s0 u s :
  Closed h = false ->
  listed (register h s0) u s
    = (listed h u s + if decide (userId s0 = u /\ s0 = s) then 1 else 0)%nat.
Proof.
  intros Hopen. unfold listed. rewrite sessions_register by done.
  destruct (decide (userId s0 = u)) as [<-|Hne].
  - rewrite lookup_insert_eq. simpl. rewrite count_occ_app. simpl.
    destruct (Session_eq_dec s0 s) as [->|Hs].
    + by rewrite decide_True.
    + rewrite decide_False; [done|]. intros [_ ?]. done.
  - rewrite lookup_insert_ne by done. rewrite decide_False; [lia|]. intros [? _]. done.
Qed.

Lemma listed_unRegister h s0 u s :
  Closed h = false ->
  listed (unRegister h s0) u s
    = if decide (userId s0 = u /\ s0 = s) then pred (listed h u s) else listed h u s.
Proof.
  intros Hopen. unfold listed, unRegister. rewrite Hopen.
  destruct (sessions h !! userId s0) as [ss|] eqn:Hl.
  - destruct (index_of s0 ss) as [i|] eqn:Hi.
    + apply index_of_Some in Hi as (l1 & l2 & -> & Hnot & ->). simpl.
      destruct (decide (userId s0 = u)) as [<-|Hne].
      * rewrite lookup_insert_eq, Hl. simpl. rewrite !count_occ_app. simpl.
        destruct (Session_eq_dec s0 s) as [->|Hs].
        -- rewrite decide_True by done. lia.
        -- rewrite decide_False; [done|]. intros [_ ?]. done.
      * rewrite lookup_insert_ne by done. rewrite decide_False; [done|].
        intros [? _]. done.
    + case_decide as Hd; [|done]. destruct Hd as [<- <-]. rewrite Hl. simpl.
      apply index_of_None in Hi.
      by rewrite (proj1 (count_occ_not_In Session_eq_dec ss s0));
        [|by rewrite <- list_elem_of_In].
  - case_decide as Hd; [|done]. destruct Hd as [<- <-]. by rewrite Hl.
Qed.

Lemma listed_after_events evs : forall h u s,
  Closed h = false ->
  listed (fold_left apply_reg evs h) u s
    = if decide (userId s = u) then live_registrations evs s (listed h u s)
      else listed h u s.
Proof.
  induction evs as [|[s0|s0] evs IH]; intros h u s Hopen; simpl.
  - by case_decide.
  - rewrite IH by (by rewrite Closed_register). rewrite listed_register by done.
    destruct (decide (userId s = u)) as [<-|Hne].
    + destruct (decide (s0 = s)) as [->|Hs].
      * rewrite decide_True by done. f_equal. lia.
      * rewrite decide_False; [f_equal; lia|]. intros [_ ?]. done.
    + rewrite decide_False; [lia|]. intros [? <-]. done.
  - rewrite IH by (by rewrite Closed_unRegister). rewrite listed_unRegister by done.
    destruct (decide (userId s = u)) as [<-|Hne].
    + destruct (decide (s0 = s)) as [->|Hs].
      * by rewrite decide_True.
      * rewrite decide_False; [done|]. intros [_ ?]. done.
    + rewrite decide_False; [done|]. intros [? <-]. done.
Qed.

Lemma count_reg_cons ev evs s :
  count_reg (ev :: evs) s
    = ((match ev with Reg s' => if decide (s' = s) then 1 else 0 | Unreg _ => 0 end)
       + count_reg evs s)%nat.
Proof.
  unfold count_reg. simpl. destruct ev as [s'|s']; [|done].
  by destruct (decide (s' = s)); [rewrite bool_decide_eq_true_2 | rewrite bool_decide_eq_false_2].
Qed.

Lemma count_unreg_cons ev evs s :
  count_unreg (ev :: evs) s
    = ((match ev with Unreg s' => if decide (s' = s) then 1 else 0 | Reg _ => 0 end)
       + count_unreg evs s)%nat.
Proof.
  unfold count_unreg. simpl. destruct ev as [s'|s']; [done|].
  by destruct (decide (s' = s)); [rewrite bool_decide_eq_true_2 | rewrite bool_decide_eq_false_2].
Qed.

(** When no unregister comes too early, the live registrations are the
    registrations less the unregistrations. *)
Lemma live_registrations_balance s evs : forall n,
  (forall pre post, evs = pre ++ Unreg s :: post ->
     (count_unreg pre s < n + count_reg pre s)%nat) ->
  (live_registrations evs s n + count_unreg evs s = n + count_reg evs s)%nat.
Proof.
  induction evs as [|ev evs IH]; intros n Hwf.
  - simpl. unfold count_reg, count_unreg. simpl. lia.
  - rewrite count_reg_cons, count_unreg_cons. destruct ev as [s'|s']; simpl.
    + assert (Hwf' : forall pre post, evs = pre ++ Unreg s :: post ->
                (count_unreg pre s < (if decide (s' = s) then S n else n) + count_reg pre s)%nat).
      { intros pre post ->. specialize (Hwf (Reg s' :: pre) post eq_refl).
        rewrite count_reg_cons, count_unreg_cons in Hwf.
        destruct (decide (s' = s)); lia. }
      pose proof (IH _ Hwf') as Hbal. destruct (decide (s' = s)); lia.
    + assert (Hwf' : forall pre post, evs = pre ++ Unreg s :: post ->
                (count_unreg pre s < (if decide (s' = s) then pred n else n) + count_reg pre s)%nat).
      { intros pre post ->. specialize (Hwf (Unreg s' :: pre) post eq_refl).
        rewrite count_reg_cons, count_unreg_cons in Hwf.
        destruct (decide (s' = s)); lia. }
      pose proof (IH _ Hwf') as Hbal. destruct (decide (s' = s)) as [->|Hne]; [|lia].
      pose proof (Hwf [] evs eq_refl) as H0. unfold count_reg, count_unreg in H0.
      simpl in H0. lia.
Qed.

(** An unregister takes away at most one listing, a register adds one. *)
Lemma live_registrations_bounds s evs : forall n,
  (n + count_reg evs s - count_unreg evs s <= live_registrations evs s n
     <= n + count_reg evs s)%nat.
Proof.
  induction evs as [|ev evs IH]; intros n.
  - simpl. unfold count_reg, count_unreg. simpl. lia.
  - rewrite count_reg_cons, count_unreg_cons. destruct ev as [s'|s']; simpl.
    + pose proof (IH (if decide (s' = s) then S n else n)) as Hb.
      destruct (decide (s' = s)); lia.
    + pose proof (IH (if decide (s' = s) then pred n else n)) as Hb.
      destruct (decide (s' = s)); lia.
Qed.

(** C5 (as amended): on an open hub, register appends the session to the
    list under its user (an absent list counting as empty), unregister takes
    the first occurrence of that very session out of the list under its
    user and leaves every other entry alone, doing nothing when the session
    is not listed, and both leave a closed hub as it is.  After any sequence
    of such events on a new hub a session is listed under no user but its
    own, at least as often as it was registered less unregistered and at
    most as often as it was registered.  When each unregister cancels an
    earlier registration of its session, the registry is the sessions
    registered minus those unregistered. *)
Theorem registry_after_events evs :
  let h := fold_left apply_reg evs NewHub in
  (forall h0 s, Closed h0 = false ->
     sessions (register h0 s)
       = <[userId s := default [] (sessions h0 !! userId s) ++ [s]]> (sessions h0)) /\
  (forall h0 s, Closed h0 = false ->
     (forall l1 l2, sessions h0 !! userId s = Some (l1 ++ s :: l2) -> s ∉ l1 ->
        sessions (unRegister h0 s) = <[userId s := l1 ++ l2]> (sessions h0)) /\
     ((sessions h0 !! userId s = None \/
       exists ss, sessions h0 !! userId s = Some ss /\ s ∉ ss) ->
      unRegister h0 s = h0)) /\
  (forall h0 s, Closed h0 = true -> register h0 s = h0 /\ unRegister h0 s = h0) /\
  (forall u s, userId s <> u -> listed h u s = 0%nat) /\
  (forall s, (count_reg evs s - count_unreg evs s <= listed h (userId s) s
                <= count_reg evs s)%nat) /\
  (unregister_follows_register evs -> registered_minus_unregistered evs).
Proof.
  intros h.
  assert (Hlisted : forall u s,
    listed h u s = if decide (userId s = u) then live_registrations evs s 0 else 0%nat).
  { intros u s. unfold h. rewrite listed_after_events by done.
    unfold listed at 1 2. simpl. by rewrite lookup_empty. }
  split; [intros h0 s Hopen; by apply sessions_register|].
  split; [intros h0 s Hopen; split;
          [intros l1 l2; by apply sessions_unRegister | apply unRegister_absent]|].
  split; [intros h0 s Hc; unfold register, unRegister; by rewrite Hc|].
  split; [intros u s Hne; rewrite Hlisted; by rewrite decide_False|].
  split.
  { intros s. rewrite Hlisted, decide_True by done.
    pose proof (live_registrations_bounds s evs 0). lia. }
  intros Hwf u s. fold h. rewrite Hlisted. case_decide; [|done].
  assert (Hbal : (live_registrations evs s 0 + count_unreg evs s
                  = 0 + count_reg evs s)%nat); [|lia].
  apply live_registrations_balance. intros pre post Heq. simpl.
  by apply (Hwf pre s post).
Qed.

Lemma registry_after_events_witness :
  let evs := [Reg s1; Reg s2; Reg s3; Unreg s2] in
  unregister_follows_register evs /\
  listed (fold_left apply_reg evs NewHub) "a" s1 = 1%nat /\
  listed (fold_left apply_reg evs NewHub) "a" s2 = 0%nat /\
  listed (fold_left apply_reg evs NewHub) "b" s3 = 1%nat /\
  sessions (unRegister hub_ab s2) = <[ "a" := [s1] ]> (sessions hub_ab).
Proof.
  intros evs.
  assert (Hwf : unregister_follows_register evs).
  { intros pre s post Heq. unfold evs in Heq.
    destruct pre as [|e1 [|e2 [|e3 [|e4 [|e5 pre]]]]]; simplify_eq/=.
    vm_compute. lia. }
  pose proof (registry_after_events evs) as (_ & Hun & _ & _ & _ & Hcount).
  split; [exact Hwf|].
  split; [exact (Hcount Hwf "a" s1)|]. split; [exact (Hcount Hwf "a" s2)|].
  split; [exact (Hcount Hwf "b" s3)|].
  destruct (Hun hub_ab s2 eq_refl) as [Hrm _].
  apply (Hrm [s1] []); [reflexivity|].
  apply not_elem_of_cons. split; [discriminate | apply not_elem_of_nil].
Defined.

(** C5 as stated fails: an unregister that comes before the registration of
    its session finds nothing to remove and is ignored, so after
    [Unreg s1; Reg s1] the session is listed, although it was unregistered
    as often as it was registered. *)
Lemma early_unregister_is_ignored :
  ~ registered_minus_unregistered [Unreg s1; Reg s1].
Proof.
  intros H. specialize (H "a" s1). vm_compute in H. discriminate H.
Qed.

(** ** C4: the exit case *)

Lemma run_ops_app b r ops1 ops2 : forall h w,
  run_ops b r (ops1 ++ ops2) h w
    = '(h1, w1) ← run_ops b r ops1 h w; run_ops b r ops2 h1 w1.
Proof.
  induction ops1 as [|op ops1 IH]; intros h w; [done|].
  simpl. destruct (match op with RecvExited s => _ | _ => _ end) as [w1| |reason]; [|done..].
  cbn [mbind outcome_bind].
  destruct (exec_op b op h w1) as [[h' w']| |reason]; [|done..].
  cbn [mbind outcome_bind]. apply IH.
Qed.

Lemma writeRaw_heap r s m w : heap (writeRaw r s m w).1 = heap w.
Proof.
  unfold writeRaw. destruct (write_err r); [done|].
  by destruct (t m =? websocket.CloseMessage)%Z.
Qed.

(** [writeMessage] touches at most the queue of its session. *)
Lemma writeMessage_frame b s e w :
  exists w', writeMessage b s e w = Done w' /\
    (forall s', s' <> s -> heap w' s' = heap w s') /\
    pump (heap w' s) = pump (heap w s) /\
    Chan.closed (output (heap w' s)) = Chan.closed (output (heap w s)).
Proof.
  destruct (Chan.closed (output (heap w s))) eqn:Hc.
  - rewrite writeMessage_closed by done. eexists. split; [done|]. simpl.
    by rewrite Hc.
  - destruct (Chan.full (output (heap w s))) eqn:Hf.
    + rewrite writeMessage_full by done. eexists. split; [done|]. simpl.
      by rewrite Hc.
    + rewrite writeMessage_room by done. eexists. split; [done|].
      split; [intros s' Hne; by apply heap_update_ne|].
      rewrite heap_update_eq. simpl. by rewrite Hc.
Qed.

Lemma run_pump_parked b r n s w :
  pump (heap w s) <> InLoop -> run_pump b r n s w = Done w.
Proof. intros Hp. destruct n; simpl; [done|]. by destruct (pump (heap w s)). Qed.

Ltac heap_norm :=
  repeat first
    [ rewrite heap_update_eq
    | rewrite heap_update_ne by done
    | rewrite writeRaw_heap
    | rewrite heap_emit
    | progress cbn [set_pump set_output set_keys pump output keys
                    Chan.closed Chan.buf Chan.dataqsiz] ].

(** Once its queue is closed, a write loop that is still around gets to
    the send on [s.exited] within one turn per queued envelope and one more. *)
Lemma run_pump_closed b r s : errorHandler b = true -> forall n w,
  Chan.closed (output (heap w s)) = true ->
  (length (Chan.buf (output (heap w s))) < n)%nat ->
  pump (heap w s) <> Returned ->
  exists w', run_pump b r n s w = Done w' /\
    pump (heap w' s) = SendingExited /\
    Chan.closed (output (heap w' s)) = true /\
    (forall s', s' <> s -> heap w' s' = heap w s').
Proof.
  intros Hh. induction n as [|n IH]; intros w Hc Hlen Hp; [lia|].
  destruct (pump (heap w s)) eqn:Hpc; [| |done].
  2:{ exists w. rewrite run_pump_parked by (by rewrite Hpc). by rewrite Hpc. }
  simpl. rewrite Hpc. unfold writePump_step, Chan.recv. rewrite Hpc.
  destruct (Chan.buf (output (heap w s))) as [|m rest] eqn:Hb.
  - rewrite Hc. cbn [mbind outcome_bind].
    rewrite run_pump_parked by (by rewrite heap_update_eq).
    eexists. split; [done|]. unfold close. heap_norm.
    split; [done|]. split; [done|]. intros s' Hne. by heap_norm.
  - cbn [mbind outcome_bind].
    set (w0 := update s _ w).
    pose proof (writeRaw_heap (r n) s m w0) as Hraw.
    destruct (writeRaw (r n) s m w0) as [w1 [err|]] eqn:Hwr; cbn [fst] in Hraw.
    + unfold call_errorHandler. rewrite Hh. cbn [mbind outcome_bind].
      rewrite run_pump_parked by (by rewrite heap_update_eq).
      eexists. split; [done|]. heap_norm. rewrite Hraw. unfold w0. heap_norm.
      rewrite Hc. split; [done|]. split; [done|]. intros s' Hne. heap_norm.
      rewrite Hraw. unfold w0. by heap_norm.
    + destruct (IH w1) as (w' & Hrun & Hp' & Hc' & Hfr).
      * rewrite Hraw. unfold w0. heap_norm. done.
      * rewrite Hraw. unfold w0. heap_norm. simpl in Hlen. lia.
      * rewrite Hraw. unfold w0. heap_norm. by rewrite Hpc.
      * exists w'. split; [done|]. split; [done|]. split; [done|].
        intros s' Hne. rewrite Hfr by done. rewrite Hraw. unfold w0.
        by heap_norm.
Qed.

Lemma teardown_one b r s h w :
  errorHandler b = true ->
  ready w s ->
  exists w', run_ops b r [SessionClose s; CloseOutput s; RecvExited s] h w = Done (h, w') /\
    gone w' s /\ forall s', s' <> s -> heap w' s' = heap w s'.
Proof.
  intros Hh [Hc Hp].
  destruct (writeMessage_frame b s close_envelope w) as (wa & Hclose & Hfa & Hpa & Hca).
  rewrite Hc in Hca.
  set (wb := update s (set_output {| Chan.buf := Chan.buf (output (heap wa s));
                                     Chan.dataqsiz := Chan.dataqsiz (output (heap wa s));
                                     Chan.closed := true |}) wa).
  destruct (run_pump_closed b r s Hh (S (length (Chan.buf (output (heap wb s))))) wb)
    as (wc & Hrun & Hpc & Hcc & Hfc).
  { unfold wb. by heap_norm. }
  { lia. }
  { unfold wb. heap_norm. by rewrite Hpa. }
  cbn [run_ops exec_op]. cbn [mbind outcome_bind]. unfold Close. rewrite Hclose.
  cbn [mbind outcome_bind]. unfold Chan.close. rewrite Hca. cbn [mbind outcome_bind].
  fold wb. rewrite Hrun. cbn [mbind outcome_bind]. unfold recv_exited. rewrite Hpc.
  cbn [mbind outcome_bind]. eexists. split; [done|]. split.
  - split; heap_norm; done.
  - intros s' Hne. heap_norm. rewrite Hfc by done. unfold wb. heap_norm. by apply Hfa.
Qed.

Lemma teardown_cons s ss :
  teardown (s :: ss) = [SessionClose s; CloseOutput s; RecvExited s] ++ teardown ss.
Proof. reflexivity. Qed.

Lemma teardown_app ss1 ss2 : teardown (ss1 ++ ss2) = teardown ss1 ++ teardown ss2.
Proof. unfold teardown. apply flat_map_app. Qed.

(** The sessions of one user are torn down one after the other. *)
Lemma teardown_all b r ss : errorHandler b = true -> forall h w,
  NoDup ss ->
  (forall s, s ∈ ss -> ready w s) ->
  exists w', run_ops b r (teardown ss) h w = Done (h, w') /\
    (forall s, s ∈ ss -> gone w' s) /\
    (forall s, s ∉ ss -> heap w' s = heap w s).
Proof.
  intros Hh. induction ss as [|a ss IH]; intros h w Hnd Hready.
  - exists w. split; [done|]. split; [|done]. intros s Hs. by apply elem_of_nil in Hs.
  - apply NoDup_cons in Hnd as [Ha Hnd].
    destruct (teardown_one b r a h w Hh) as (w1 & Hrun1 & Hgone1 & Hfr1).
    { apply Hready. by left. }
    destruct (IH h w1 Hnd) as (w' & Hrun & Hgone & Hfr).
    { intros s Hs. unfold ready. rewrite Hfr1 by (intros ->; done).
      apply Hready. by right. }
    exists w'. rewrite teardown_cons, run_ops_app, Hrun1. cbn [mbind outcome_bind].
    split; [done|]. split.
    + intros s [->|Hs]%elem_of_cons; [|by apply Hgone].
      unfold gone. by rewrite Hfr.
    + intros s [Hne Hs]%not_elem_of_cons. rewrite Hfr by done. by apply Hfr1.
Qed.

Lemma drop_entries_cons key ss order h :
  drop_entries ((key, ss) :: order) h
    = drop_entries order {| closed := closed h; exited := exited h;
                            sessions := delete key (sessions h) |}.
Proof. reflexivity. Qed.

Lemma drop_entries_flags order : forall h,
  closed (drop_entries order h) = closed h /\ exited (drop_entries order h) = exited h.
Proof.
  induction order as [|[key ss] order IH]; intros h; [done|].
  rewrite drop_entries_cons. by destruct (IH {| closed := closed h; exited := exited h;
                                                sessions := delete key (sessions h) |}).
Qed.

Lemma drop_entries_lookup order : forall h k,
  sessions (drop_entries order h) !! k
    = if decide (k ∈ order.*1) then None else sessions h !! k.
Proof.
  induction order as [|[key ss] order IH]; intros h k.
  - case_decide as Hin; [by apply elem_of_nil in Hin | done].
  - rewrite drop_entries_cons, IH. simpl.
    destruct (decide (k ∈ order.*1)) as [Hin|Hnin].
    + rewrite decide_True; [done | by right].
    + destruct (decide (k = key)) as [->|Hne].
      * rewrite decide_True by (by left). apply lookup_delete_eq.
      * rewrite decide_False by (by intros [?|?]%elem_of_cons).
        by apply lookup_delete_ne.
Qed.

Lemma entry_sessions_cons key ss order :
  entry_sessions ((key, ss) :: order) = ss ++ entry_sessions order.
Proof. reflexivity. Qed.

Lemma entry_sessions_app o1 o2 :
  entry_sessions (o1 ++ o2) = entry_sessions o1 ++ entry_sessions o2.
Proof. unfold entry_sessions. apply flat_map_app. Qed.

Lemma teardown_entries_cons key ss order :
  teardown_entries ((key, ss) :: order)
    = teardown ss ++ [DeleteKey key] ++ teardown_entries order.
Proof. unfold teardown_entries. simpl. by rewrite <- app_assoc. Qed.

Lemma teardown_entries_app o1 o2 :
  teardown_entries (o1 ++ o2) = teardown_entries o1 ++ teardown_entries o2.
Proof. unfold teardown_entries. apply flat_map_app. Qed.

(** The entries are gone through one after the other, each deleted once
    its sessions have exited. *)
Lemma teardown_entries_run b r order : errorHandler b = true -> forall h w,
  NoDup (entry_sessions order) ->
  (forall s, s ∈ entry_sessions order -> ready w s) ->
  exists w', run_ops b r (teardown_entries order) h w = Done (drop_entries order h, w') /\
    (forall s, s ∈ entry_sessions order -> gone w' s) /\
    (forall s, s ∉ entry_sessions order -> heap w' s = heap w s).
Proof.
  intros Hh. induction order as [|[key ss] order IH]; intros h w Hnd Hready.
  - exists w. split; [done|]. split; [|done]. intros s Hs. by apply elem_of_nil in Hs.
  - rewrite entry_sessions_cons in Hnd, Hready.
    apply NoDup_app in Hnd as (Hnd1 & Hdisj & Hnd2).
    destruct (teardown_all b r ss Hh h w Hnd1) as (w1 & Hrun1 & Hgone1 & Hfr1).
    { intros s Hs. apply Hready, elem_of_app. by left. }
    set (h1 := {| closed := closed h; exited := exited h;
                  sessions := delete key (sessions h) |}).
    destruct (IH h1 w1 Hnd2) as (w' & Hrun & Hgone & Hfr).
    { intros s Hs. unfold ready. rewrite Hfr1.
      - apply Hready, elem_of_app. by right.
      - intros Hin. by apply (Hdisj s). }
    exists w'. rewrite teardown_entries_cons, !run_ops_app, Hrun1.
    cbn [app mbind outcome_bind run_ops exec_op]. fold h1. rewrite Hrun.
    rewrite drop_entries_cons. fold h1. split; [done|].
    rewrite entry_sessions_cons. split.
    + intros s [Hs|Hs]%elem_of_app; [|by apply Hgone].
      unfold gone. rewrite Hfr; [by apply Hgone1|]. by apply Hdisj.
    + intros s [Hs1 Hs2]%not_elem_of_app. rewrite Hfr by done. by apply Hfr1.
Qed.

Lemma case_exit_unfold order :
  case_exit order = StoreClosed :: teardown_entries order ++ [SendHubExited].
Proof. reflexivity. Qed.

(** C4 (as amended): take a hub at its select whose registered sessions are
    distinct, have open queues and write loops that have not returned, with
    an error callback installed.  On an exit request the hub first sets its
    flag, which has two values only, so that [Closed] answers true from
    then on; it then takes the entries of the registry one after the other and, within
    an entry, the sessions one after the other: each is sent the close
    envelope through [writeMessage], has its queue closed and is waited for;
    when the hub turns to a session, all sessions before it have returned
    and their queues are closed, the entries before its own are deleted,
    and the session itself and those after it are untouched.  Its
    [s.Close()] then returns and touches no other session: on a queue with
    room the close envelope is appended to what the queue held and nothing
    is reported, on a full queue the queue is left as it was and the error
    callback is called once with the "channel full" error naming the close
    envelope.  An entry is deleted as soon as its own sessions have exited.
    In the end the registry is empty, the hub signals on [exited] and
    [Hub.Close] returns. *)
Theorem hub_exit_in_order b r order p w :
  errorHandler b = true ->
  exited (hub p) = false -> pending p = [] ->
  order ≡ₚ map_to_list (sessions (hub p)) ->
  NoDup (entry_sessions order) ->
  (forall s, s ∈ entry_sessions order -> ready w s) ->
  hub_recv order EvExit p
    = Done {| hub := hub p;
              pending := StoreClosed :: teardown_entries order ++ [SendHubExited] |} /\
  (forall o1 key ss1 s ss2 o2, order = o1 ++ (key, ss1 ++ s :: ss2) :: o2 ->
     let pre := StoreClosed :: teardown_entries o1 ++ teardown ss1 in
     case_exit order
       = pre ++ [SessionClose s; CloseOutput s; RecvExited s] ++ teardown ss2
             ++ DeleteKey key :: teardown_entries o2 ++ [SendHubExited] /\
     exists h1 w1,
       run_ops b r pre (hub p) w = Done (h1, w1) /\
       Closed h1 = true /\
       (forall k, sessions h1 !! k
                  = if decide (k ∈ o1.*1) then None else sessions (hub p) !! k) /\
       (forall s', s' ∈ entry_sessions o1 ++ ss1 -> gone w1 s') /\
       (forall s', s' ∉ entry_sessions o1 ++ ss1 -> heap w1 s' = heap w s') /\
       exists w2,
         exec_op b (SessionClose s) h1 w1 = Done (h1, w2) /\
         (forall s', s' <> s -> heap w2 s' = heap w1 s') /\
         if Chan.full (output (heap w s))
         then heap w2 s = heap w s /\
              log w2 = log w1 ++ [CallErrorHandler s (ErrChannelFull close_envelope)]
         else heap w2 s = set_output (Chan.put close_envelope (output (heap w s))) (heap w s) /\
              log w2 = log w1) /\
  (exists h' w',
     Hub_Close b r order p w = Done ({| hub := h'; pending := [] |}, w') /\
     closed h' = 1 /\ exited h' = true /\ sessions h' = ∅ /\
     (forall s, s ∈ entry_sessions order -> gone w' s) /\
     (forall s, s ∉ entry_sessions order -> heap w' s = heap w s)).
Proof.
  intros Hh Hex Hpend Hperm Hnd Hready.
  set (h0 := {| closed := 1; exited := exited (hub p); sessions := sessions (hub p) |}).
  assert (Hrecv : hub_recv order EvExit p
            = Done {| hub := hub p;
                      pending := StoreClosed :: teardown_entries order ++ [SendHubExited] |}).
  { unfold hub_recv. by rewrite Hex, Hpend. }
  split; [exact Hrecv|]. split.
  - intros o1 key ss1 s ss2 o2 -> pre. split.
    + unfold pre. rewrite case_exit_unfold, teardown_entries_app, teardown_entries_cons,
        teardown_app, teardown_cons. simpl. rewrite <- !app_assoc. done.
    + rewrite entry_sessions_app, entry_sessions_cons in Hnd, Hready.
      apply NoDup_app in Hnd as (Hnd1 & Hdisj1 & Hnd2).
      apply NoDup_app in Hnd2 as (Hnd2 & _ & _).
      apply NoDup_app in Hnd2 as (Hnd2 & Hdisj2 & _).
      destruct (teardown_entries_run b r o1 Hh h0 w Hnd1) as (wa & Hruna & Hgonea & Hfra).
      { intros s' Hs'. apply Hready, elem_of_app. by left. }
      destruct (teardown_all b r ss1 Hh (drop_entries o1 h0) wa Hnd2)
        as (wb & Hrunb & Hgoneb & Hfrb).
      { intros s' Hs'. unfold ready. rewrite Hfra.
        - apply Hready. rewrite !elem_of_app. right. left. by left.
        - intros Hin. apply (Hdisj1 s' Hin). rewrite !elem_of_app. left. by left. }
      exists (drop_entries o1 h0), wb. unfold pre.
      cbn [run_ops exec_op mbind outcome_bind]. fold h0.
      rewrite run_ops_app, Hruna. cbn [mbind outcome_bind]. rewrite Hrunb.
      split; [done|]. split.
      { unfold Closed. by destruct (drop_entries_flags o1 h0) as [-> _]. }
      split; [intros k; by rewrite drop_entries_lookup|]. split.
      { intros s' [Hs'|Hs']%elem_of_app; [|by apply Hgoneb].
        unfold gone. destruct (decide (s' ∈ ss1)) as [Hin|Hnin]; [by apply Hgoneb|].
        rewrite Hfrb by done. by apply Hgonea. }
      split.
      { intros s' [Hs1 Hs2]%not_elem_of_app. rewrite Hfrb by done. by apply Hfra. }
      assert (Hsame : heap wb s = heap w s).
      { rewrite Hfrb, Hfra; [done| |].
        - intros Hin. apply (Hdisj1 s Hin). rewrite !elem_of_app. left. right. by left.
        - intros Hin. apply (Hdisj2 s Hin). by left. }
      assert (Hopen : Chan.closed (output (heap wb s)) = false).
      { rewrite Hsame. apply Hready. rewrite !elem_of_app. right. left. right. by left. }
      destruct (writeMessage_contract b s close_envelope wb Hh Hopen)
        as (w2 & Hclose & Hfr2 & Hqueue).
      exists w2. cbn [exec_op]. unfold Close. rewrite Hclose. cbn [mbind outcome_bind].
      split; [done|]. split; [exact Hfr2|]. by rewrite Hsame in Hqueue.
  - destruct (teardown_entries_run b r order Hh h0 w Hnd Hready)
      as (w' & Hrun & Hgone & Hfr).
    destruct (drop_entries_flags order h0) as [Hcl Hexd].
    exists {| closed := closed (drop_entries order h0); exited := true;
              sessions := sessions (drop_entries order h0) |}, w'.
    split.
    { unfold Hub_Close. rewrite Hex, Hrecv. cbn [mbind outcome_bind pending hub].
      cbn [run_ops exec_op mbind outcome_bind]. fold h0.
      rewrite run_ops_app, Hrun. by cbn [mbind outcome_bind run_ops exec_op exited]. }
    cbn [closed exited sessions]. split; [by rewrite Hcl|]. split; [done|].
    split; [|by split].
    apply map_eq. intros k. rewrite drop_entries_lookup, lookup_empty.
    case_decide as Hk; [done|]. simpl.
    destruct (sessions (hub p) !! k) as [ss|] eqn:Hl; [|done].
    exfalso. apply Hk. apply list_elem_of_fmap. exists (k, ss). split; [done|].
    rewrite Hperm. by apply elem_of_map_to_list.
Qed.

Lemma hub_exit_in_order_witness :
  let order := map_to_list (sessions hub_ab) in
  let p := {| hub := hub_ab; pending := [] |} in
  (exists h1 w1 w2,
     run_ops b_on (fun _ => ok_io) (StoreClosed :: teardown_entries [("a", [s1; s2])] ++ teardown [])
       hub_ab (world_of st_empty) = Done (h1, w1) /\
     Closed h1 = true /\ gone w1 s1 /\ gone w1 s2 /\
     heap w1 s3 = heap (world_of st_empty) s3 /\
     exec_op b_on (SessionClose s3) h1 w1 = Done (h1, w2) /\
     Chan.buf (output (heap w2 s3)) = [close_envelope] /\
     log w2 = log w1) /\
  (exists h' w',
     Hub_Close b_on (fun _ => ok_io) order p (world_of st_empty)
       = Done ({| hub := h'; pending := [] |}, w') /\
     closed h' = 1 /\ exited h' = true /\ sessions h' = ∅ /\
     gone w' s1 /\ gone w' s2 /\ gone w' s3).
Proof.
  intros order p.
  assert (Hnd : NoDup (entry_sessions order)).
  { apply (bool_decide_unpack _). by vm_compute. }
  assert (Hready : forall s, s ∈ entry_sessions order -> ready (world_of st_empty) s).
  { intros s _. split; [reflexivity | discriminate]. }
  pose proof (hub_exit_in_order b_on (fun _ => ok_io) order p (world_of st_empty)
                eq_refl eq_refl eq_refl (reflexivity _) Hnd Hready)
    as (_ & Hturn & h' & w' & Hclose & Hcl & Hex & Hemp & Hgone & _).
  split.
  - destruct (Hturn [("a", [s1; s2])] "b" [] s3 [] [] eq_refl)
      as (_ & h1 & w1 & Hrun & Hc1 & _ & Hg1 & Hf1 & w2 & Hsc & _ & Hq).
    cbn in Hq. destruct Hq as [Hq Hl].
    exists h1, w1, w2. split; [exact Hrun|]. split; [exact Hc1|].
    split; [apply Hg1; by left|]. split; [apply Hg1; right; by left|].
    split; [|split; [exact Hsc|split; [by rewrite Hq | exact Hl]]].
    apply Hf1. intros Hin. vm_compute in Hin.
    repeat (apply elem_of_cons in Hin as [Hin|Hin]; [discriminate|]).
    by apply elem_of_nil in Hin.
  - exists h', w'. split; [exact Hclose|]. split; [exact Hcl|]. split; [exact Hex|].
    split; [exact Hemp|].
    split; [apply Hgone; by left|].
    split; [apply Hgone; right; by left|]. apply Hgone. right; right; by left.
Defined.

(** C4 as stated fails: with users "a" and "b" registered, the entry of "a"
    is deleted once its two sessions have exited, while the session of "b"
    has not been told to close yet. *)
Lemma exit_deletes_entries_early :
  ~ registry_kept_until_all_exited b_on (fun _ => ok_io) (map_to_list (sessions hub_ab))
      hub_ab (world_of st_empty).
Proof.
  intros H.
  specialize (H (firstn 8 (case_exit (map_to_list (sessions hub_ab))))
                (skipn 8 (case_exit (map_to_list (sessions hub_ab))))).
  destruct (run_ops b_on (fun _ => ok_io)
              (firstn 8 (case_exit (map_to_list (sessions hub_ab))))
              hub_ab (world_of st_empty)) as [[h1 w1]| |] eqn:Hrun;
    try (vm_compute in Hrun; discriminate Hrun).
  specialize (H h1 w1 (eq_sym (firstn_skipn _ _)) eq_refl).
  vm_compute in Hrun. injection Hrun as <- <-.
  assert (Hsame : sessions hub_ab !! "a" = Some [s1; s2]) by reflexivity.
  rewrite <- H in Hsame; [discriminate Hsame|].
  exists s3. split; [|discriminate]. right; right; by left.
Qed.

(** ** The key-value store: writes and reads *)

(** X1: a value stored with [Set] is what [Get] returns for that key and
    session; other keys, other sessions, the queue, the write loop and the
    log are left as they were, and a second [Set] replaces the first. *)
Theorem Set_then_Get s key val w :
  Get s key (Set_ s key val w) = val /\
  (forall key', key' <> key -> Get s key' (Set_ s key val w) = Get s key' w) /\
  (forall s', s' <> s -> heap (Set_ s key val w) s' = heap w s') /\
  output (heap (Set_ s key val w) s) = output (heap w s) /\
  pump (heap (Set_ s key val w) s) = pump (heap w s) /\
  log (Set_ s key val w) = log w /\
  (forall val', Get s key (Set_ s key val' (Set_ s key val w)) = val').
Proof.
  split; [apply Get_Set|]. split.
  { intros key' Hne. unfold Get, Set_. rewrite heap_update_eq. simpl.
    by rewrite lookup_insert_ne. }
  split; [intros s' Hne; unfold Set_; by rewrite heap_update_ne|].
  split; [unfold Set_; by rewrite heap_update_eq|].
  split; [unfold Set_; by rewrite heap_update_eq|].
  split; [done|]. intros val'. apply Get_Set.
Qed.

Lemma Set_then_Get_witness :
  Get s1 "room" (Set_ s1 "room" (String_ "lobby") (world_of st_empty)) = String_ "lobby" /\
  Get s1 "seat" (Set_ s1 "room" (String_ "lobby") (world_of st_empty)) = Nil /\
  heap (Set_ s1 "room" (String_ "lobby") (world_of st_empty)) s2 = st_empty.
Proof.
  pose proof (Set_then_Get s1 "room" (String_ "lobby") (world_of st_empty))
    as (Hget & Hother & Hframe & _).
  split; [exact Hget|]. split.
  - rewrite (Hother "seat"); [reflexivity | discriminate].
  - rewrite (Hframe s2); [reflexivity | discriminate].
Defined.

(** X2: after [Set], [MustGet] returns the stored value unless that value is
    nil, in which case it panics although the key is present; the typed
    getters return the value when it has their type and the zero value
    otherwise. *)
Theorem MustGet_after_Set s key val w :
  MustGet s key (Set_ s key val w)
    = match val with
      | Nil => Panics ("Session MustGet:" +:+ key +:+ " fail")
      | _ => Done val
      end /\
  GetString s key (Set_ s key val w) = match val with String_ v => v | _ => "" end /\
  GetInt s key (Set_ s key val w) = match val with Int v => v | _ => 0 end /\
  GetInt64 s key (Set_ s key val w) = match val with Int64 v => v | _ => 0 end.
Proof.
  unfold MustGet, GetString, GetInt, GetInt64. rewrite Get_Set.
  by destruct val.
Qed.

(** ** Request parameters *)

(** X3: for a parameter that is absent, or present with the empty string,
    [GetParam] returns the empty string and [GetParamInt] and
    [GetParamInt64] return 0 whatever the parser would say; for any other
    value they return the parser's number and drop its error. *)
Theorem GetParam_absent_or_empty params Atoi ParseInt s key :
  ((params s !! key = None \/ params s !! key = Some "") ->
   GetParam params s key = "" /\
   GetParamInt params Atoi s key = 0 /\
   GetParamInt64 params ParseInt s key = 0) /\
  (forall val, params s !! key = Some val -> val <> "" ->
   GetParam params s key = val /\
   GetParamInt params Atoi s key = fst (Atoi val) /\
   GetParamInt64 params ParseInt s key = fst (ParseInt val)).
Proof.
  unfold GetParamInt, GetParamInt64, GetParam. split.
  - intros [-> | ->]; done.
  - intros val Hval Hne. rewrite Hval. cbn [default id]. by rewrite !decide_False.
Qed.

Lemma GetParam_absent_or_empty_witness :
  let params := fun _ : Session => ({[ "page" := "7"; "q" := "" ]} : gmap string string) in
  let parse := fun v : string => if decide (v = "7") then (7, None)
                                 else (0, Some (ErrTransport "invalid syntax")) in
  GetParamInt params parse s1 "q" = 0 /\
  GetParamInt params parse s1 "missing" = 0 /\
  GetParamInt64 params parse s1 "page" = 7.
Proof.
  intros params parse.
  pose proof (GetParam_absent_or_empty params parse parse s1 "q") as (Hq & _).
  pose proof (GetParam_absent_or_empty params parse parse s1 "missing") as (Hm & _).
  pose proof (GetParam_absent_or_empty params parse parse s1 "page") as (_ & Hp).
  destruct (Hq (or_intror eq_refl)) as (_ & Hq' & _).
  destruct (Hm (or_introl eq_refl)) as (_ & Hm' & _).
  destruct (Hp "7" eq_refl) as (_ & _ & Hp'); [discriminate|].
  exact (conj Hq' (conj Hm' Hp')).
Defined.

(** ** The read loop *)

Lemma handled_app c1 c2 : handled (c1 ++ c2) = handled c1 ++ handled c2.
Proof. unfold handled. apply omap_app. Qed.

Lemma readPump_loop_data b hs s pre : messageHandler hs = true ->
  Forall data_frame pre -> forall rest calls w,
  readPump_loop b hs s (pre ++ rest) calls w
    = readPump_loop b hs s rest
        (calls ++ flat_map (fun r => [SetReadDeadline s; CallMessageHandler s (payload r)]) pre)
        w.
Proof.
  intros Hmh Hpre. induction Hpre as [|r pre Hr Hpre IH]; intros rest calls w.
  - simpl. by rewrite app_nil_r.
  - destruct r as [kind m|err]; [|done]. simpl in Hr. simpl.
    rewrite (proj2 (Z.eqb_neq _ _) Hr), Hmh, IH. by rewrite <- app_assoc.
Qed.

Lemma handled_data s pre :
  handled (flat_map (fun r => [SetReadDeadline s; CallMessageHandler s (payload r)]) pre)
    = payload <$> pre.
Proof.
  induction pre as [|r pre IH]; [done|].
  unfold handled in *. cbn. f_equal. exact IH.
Qed.

Lemma readPump_stops b hs s pre stop post w :
  messageHandler hs = true ->
  errorHandler b = true ->
  Forall data_frame pre ->
  ~ data_frame stop ->
  exists calls w',
    readPump b hs s (pre ++ stop :: post) w = Done (calls, w') /\
    handled calls = payload <$> pre /\
    heap w' = heap w /\
    log w' = log w ++ match stop with
                      | ReadErr err => [CallErrorHandler s err]
                      | ReadOk _ _ => []
                      end ++ [ConnClose s].
Proof.
  intros Hmh Heh Hpre Hstop.
  unfold readPump. rewrite readPump_loop_data by done.
  destruct stop as [kind m|err]; cbn [readPump_loop].
  - destruct (Z.eqb_spec kind websocket.CloseMessage) as [->|Hne]; [|by destruct Hstop].
    cbn [mbind outcome_bind]. eexists _, _. split; [done|].
    rewrite !handled_app, handled_data. split; [cbn; by rewrite app_nil_r|].
    by split.
  - unfold call_errorHandler. rewrite Heh. cbn [mbind outcome_bind].
    eexists _, _. split; [done|].
    rewrite !handled_app, handled_data. split; [cbn; by rewrite app_nil_r|].
    split; [done|]. cbn. by rewrite <- app_assoc.
Qed.

(** X4: the read loop hands the payloads of the frames it reads to the
    message callback, in the order read, up to the first read error; the
    error is reported by one call of the error callback, the connection is
    then closed, what the connection would return afterwards is never read,
    and no session state changes.  While only data frames arrive the loop
    does not return. *)
Theorem readPump_until_read_error b hs s pre err post w :
  messageHandler hs = true ->
  errorHandler b = true ->
  Forall data_frame pre ->
  (exists calls w',
     readPump b hs s (pre ++ ReadErr err :: post) w = Done (calls, w') /\
     handled calls = payload <$> pre /\
     heap w' = heap w /\
     log w' = log w ++ [CallErrorHandler s err; ConnClose s]) /\
  readPump b hs s pre w = Blocks.
Proof.
  intros Hmh Heh Hpre. split.
  - destruct (readPump_stops b hs s pre (ReadErr err) post w Hmh Heh Hpre)
      as (calls & w' & Hrun & Hh & Hheap & Hlog); [by intros []|].
    by exists calls, w'.
  - unfold readPump. rewrite <- (app_nil_r pre) at 1.
    by rewrite readPump_loop_data.
Qed.

Lemma readPump_until_read_error_witness :
  let hs := {| messageHandler := true; connectHandler := false; disconnectHandler := false |} in
  exists calls w',
    readPump b_on hs s1
      [ReadOk websocket.TextMessage []; ReadErr (ErrTransport "timeout");
       ReadOk websocket.TextMessage []] (world_of st_empty) = Done (calls, w') /\
    handled calls = [[]] /\
    log w' = [CallErrorHandler s1 (ErrTransport "timeout"); ConnClose s1].
Proof.
  intros hs.
  destruct (readPump_until_read_error b_on hs s1
              [ReadOk websocket.TextMessage []] (ErrTransport "timeout")
              [ReadOk websocket.TextMessage []] (world_of st_empty) eq_refl eq_refl)
    as ((calls & w' & Hrun & Hh & _ & Hlog) & _).
  - repeat constructor. discriminate.
  - exists calls, w'. split; [exact Hrun|]. split; [exact Hh | exact Hlog].
Defined.

(** ** Queues and the write loop *)

Lemma emit_emit evs1 evs2 w : emit evs2 (emit evs1 w) = emit (evs1 ++ evs2) w.
Proof. unfold emit. simpl. by rewrite <- app_assoc. Qed.

Lemma emit_update evs s f w : emit evs (update s f w) = update s f (emit evs w).
Proof. reflexivity. Qed.

(** A turn of the write loop on a frame the connection accepts. *)
Lemma writePump_step_ok b s e rest w :
  pump (heap w s) = InLoop ->
  Chan.buf (output (heap w s)) = e :: rest ->
  writePump_step b CaseOutput ok_io s w
    = Done (emit (frame_events s e)
              (update s (set_output {| Chan.buf := rest;
                                       Chan.dataqsiz := Chan.dataqsiz (output (heap w s));
                                       Chan.closed := Chan.closed (output (heap w s)) |}) w)).
Proof.
  intros Hp Hb. unfold writePump_step, Chan.recv, writeRaw, frame_events.
  rewrite Hp, Hb. cbn [mbind outcome_bind write_err close_err ok_io].
  destruct (t e =? websocket.CloseMessage)%Z; [|done].
  by rewrite emit_emit.
Qed.

(** A turn of the write loop on a closed, drained queue. *)
Lemma writePump_step_closed b s w :
  pump (heap w s) = InLoop ->
  Chan.buf (output (heap w s)) = [] ->
  Chan.closed (output (heap w s)) = true ->
  exists w', writePump_step b CaseOutput ok_io s w = Done w' /\
    log w' = log w ++ frame_events s close_envelope /\
    pump (heap w' s) = SendingExited /\
    Chan.buf (output (heap w' s)) = [] /\
    (forall s', s' <> s -> heap w' s' = heap w s').
Proof.
  intros Hp Hb Hc. unfold writePump_step, Chan.recv. rewrite Hp, Hb, Hc.
  cbn [mbind outcome_bind]. eexists. split; [done|]. unfold close.
  split; [cbn; by rewrite <- app_assoc|]. heap_norm. rewrite Hb.
  split; [done|]. split; [done|]. intros s' Hne. by heap_norm.
Qed.

Lemma run_pump_ok b s es : forall w,
  pump (heap w s) = InLoop ->
  Chan.buf (output (heap w s)) = es ->
  exists w', run_pump b (fun _ => ok_io) (length es) s w = Done w' /\
    log w' = log w ++ flat_map (frame_events s) es /\
    pump (heap w' s) = InLoop /\
    Chan.buf (output (heap w' s)) = [] /\
    Chan.closed (output (heap w' s)) = Chan.closed (output (heap w s)) /\
    (forall s', s' <> s -> heap w' s' = heap w s').
Proof.
  induction es as [|e es IH]; intros w Hp Hb.
  - exists w. simpl. rewrite app_nil_r. done.
  - simpl. rewrite Hp, (writePump_step_ok b s e es w Hp Hb). cbn [mbind outcome_bind].
    set (w1 := emit _ _).
    destruct (IH w1) as (w' & Hrun & Hlog & Hp' & Hb' & Hc' & Hfr).
    { unfold w1. heap_norm. done. }
    { unfold w1. by heap_norm. }
    exists w'. split; [done|]. split.
    { rewrite Hlog. unfold w1. simpl. by rewrite <- app_assoc. }
    split; [done|]. split; [done|]. split.
    { rewrite Hc'. unfold w1. by heap_norm. }
    intros s' Hne. rewrite Hfr by done. unfold w1. by heap_norm.
Qed.

Lemma enqueue_all_room b s es : forall w,
  Chan.closed (output (heap w s)) = false ->
  (length (Chan.buf (output (heap w s))) + length es
     <= Chan.dataqsiz (output (heap w s)))%nat ->
  exists w', enqueue_all b s es w = Done w' /\
    log w' = log w /\
    heap w' s = set_output {| Chan.buf := Chan.buf (output (heap w s)) ++ es;
                              Chan.dataqsiz := Chan.dataqsiz (output (heap w s));
                              Chan.closed := false |} (heap w s) /\
    (forall s', s' <> s -> heap w' s' = heap w s').
Proof.
  induction es as [|e es IH]; intros w Hc Hlen.
  - exists w. split; [done|]. split; [done|]. split; [|done].
    rewrite app_nil_r, <- Hc. by destruct (heap w s) as [[] ? ?].
  - simpl in Hlen. simpl. rewrite writeMessage_room; [|done|].
    2:{ unfold Chan.full. apply Nat.leb_gt. lia. }
    cbn [mbind outcome_bind]. set (w1 := update s _ w).
    destruct (IH w1) as (w' & Hrun & Hlog & Hheap & Hfr).
    { unfold w1. heap_norm. done. }
    { unfold w1. heap_norm. unfold Chan.put. simpl. rewrite length_app. simpl. lia. }
    exists w'. split; [done|]. split; [by rewrite Hlog|]. split.
    { rewrite Hheap. unfold w1. heap_norm. unfold set_output. simpl.
      by rewrite <- app_assoc. }
    intros s' Hne. rewrite Hfr by done. unfold w1. by heap_norm.
Qed.

(** X5: envelopes written to a session whose queue is open, empty and large
    enough are all queued without any report, and the write loop then sends
    them to the connection in the order they were written, one frame each,
    and is at its select again with an empty queue. *)
Theorem writes_reach_the_connection_in_order b s es w :
  pump (heap w s) = InLoop ->
  Chan.closed (output (heap w s)) = false ->
  Chan.buf (output (heap w s)) = [] ->
  (length es <= Chan.dataqsiz (output (heap w s)))%nat ->
  exists w1 w2,
    enqueue_all b s es w = Done w1 /\
    Chan.buf (output (heap w1 s)) = es /\
    log w1 = log w /\
    run_pump b (fun _ => ok_io) (length es) s w1 = Done w2 /\
    log w2 = log w ++ flat_map (frame_events s) es /\
    Chan.buf (output (heap w2 s)) = [] /\
    pump (heap w2 s) = InLoop.
Proof.
  intros Hp Hc Hb Hlen.
  destruct (enqueue_all_room b s es w Hc) as (w1 & Hrun1 & Hlog1 & Hheap1 & _).
  { rewrite Hb. simpl. lia. }
  assert (Hb1 : Chan.buf (output (heap w1 s)) = es) by (by rewrite Hheap1, Hb).
  destruct (run_pump_ok b s es w1) as (w2 & Hrun2 & Hlog2 & Hp2 & Hb2 & _).
  { by rewrite Hheap1. }
  { done. }
  exists w1, w2. rewrite Hlog2, Hlog1. done.
Qed.

Lemma writes_reach_the_connection_in_order_witness :
  exists w1 w2,
    enqueue_all b_on s1 [text_envelope []] (world_of st_empty) = Done w1 /\
    run_pump b_on (fun _ => ok_io) 1 s1 w1 = Done w2 /\
    log w2 = [SetWriteDeadline s1; WriteMessage s1 websocket.TextMessage []].
Proof.
  destruct (writes_reach_the_connection_in_order b_on s1 [text_envelope []]
              (world_of st_empty) eq_refl eq_refl eq_refl)
    as (w1 & w2 & Hq & _ & _ & Hrun & Hlog & _).
  - simpl. lia.
  - exists w1, w2. split; [exact Hq|]. split; [exact Hrun | exact Hlog].
Defined.

Lemma run_pump_drains b s es w :
  pump (heap w s) = InLoop ->
  Chan.closed (output (heap w s)) = true ->
  Chan.buf (output (heap w s)) = es ->
  exists w',
    run_pump b (fun _ => ok_io) (S (length es)) s w = Done w' /\
    log w' = log w ++ flat_map (frame_events s) es ++ frame_events s close_envelope /\
    pump (heap w' s) = SendingExited /\
    Chan.buf (output (heap w' s)) = [] /\
    (forall s', s' <> s -> heap w' s' = heap w s').
Proof.
  revert w. induction es as [|e es IH]; intros w Hp Hc Hb.
  - destruct (writePump_step_closed b s w Hp Hb Hc) as (w' & Hstep & Hlog & Hp' & Hb' & Hfr).
    exists w'. simpl. rewrite Hp, Hstep. done.
  - cbn [length]. change (run_pump b (fun _ => ok_io) (S (S (length es))) s w)
      with (match pump (heap w s) with
            | InLoop => w' ← writePump_step b CaseOutput ok_io s w;
                        run_pump b (fun _ => ok_io) (S (length es)) s w'
            | _ => Done w
            end).
    rewrite Hp, (writePump_step_ok b s e es w Hp Hb). cbn [mbind outcome_bind].
    set (w1 := emit _ _).
    destruct (IH w1) as (w' & Hrun & Hlog & Hp' & Hb' & Hfr).
    { unfold w1. heap_norm. done. }
    { unfold w1. heap_norm. done. }
    { unfold w1. by heap_norm. }
    exists w'. split; [done|]. split.
    { rewrite Hlog. unfold w1. simpl. by rewrite <- !app_assoc. }
    split; [done|]. split; [done|].
    intros s' Hne. rewrite Hfr by done. unfold w1. by heap_norm.
Qed.

(** X6: closing a queue loses nothing that was queued: envelopes written to
    a session whose queue is open, empty and large enough, and still queued
    when the hub closes the queue, are sent by the write loop in the order
    written, followed by the close frame, after which the loop is left for
    the send on [exited], as long as the connection accepts the frames. *)
Theorem queued_before_close_still_sent b s es h w :
  pump (heap w s) = InLoop ->
  Chan.closed (output (heap w s)) = false ->
  Chan.buf (output (heap w s)) = [] ->
  (length es <= Chan.dataqsiz (output (heap w s)))%nat ->
  exists w1 w2 w3,
    enqueue_all b s es w = Done w1 /\
    exec_op b (CloseOutput s) h w1 = Done (h, w2) /\
    run_pump b (fun _ => ok_io) (S (length es)) s w2 = Done w3 /\
    log w3 = log w ++ flat_map (frame_events s) es ++ frame_events s close_envelope /\
    pump (heap w3 s) = SendingExited /\
    Chan.buf (output (heap w3 s)) = [].
Proof.
  intros Hp Hc Hb Hlen.
  destruct (enqueue_all_room b s es w Hc) as (w1 & Hrun1 & Hlog1 & Hheap1 & _).
  { rewrite Hb. simpl. lia. }
  rewrite Hb in Hheap1. simpl in Hheap1.
  set (w2 := update s (set_output {| Chan.buf := es;
                                     Chan.dataqsiz := Chan.dataqsiz (output (heap w s));
                                     Chan.closed := true |}) w1).
  assert (Hclose : exec_op b (CloseOutput s) h w1 = Done (h, w2)).
  { cbn [exec_op]. unfold Chan.close. by rewrite Hheap1. }
  destruct (run_pump_drains b s es w2) as (w3 & Hrun3 & Hlog3 & Hp3 & Hb3 & _).
  { unfold w2. heap_norm. by rewrite Hheap1. }
  { unfold w2. by heap_norm. }
  { unfold w2. by heap_norm. }
  exists w1, w2, w3. split; [done|]. split; [done|]. split; [done|].
  split; [by rewrite Hlog3, <- Hlog1|]. by split.
Qed.

Lemma queued_before_close_still_sent_witness :
  exists w1 w2 w3,
    enqueue_all b_on s1 [text_envelope []] (world_of st_empty) = Done w1 /\
    exec_op b_on (CloseOutput s1) hub_a w1 = Done (hub_a, w2) /\
    run_pump b_on (fun _ => ok_io) 2 s1 w2 = Done w3 /\
    log w3 = [SetWriteDeadline s1; WriteMessage s1 websocket.TextMessage [];
              SetWriteDeadline s1; WriteMessage s1 websocket.CloseMessage []; ConnClose s1].
Proof.
  destruct (queued_before_close_still_sent b_on s1 [text_envelope []] hub_a
              (world_of st_empty) eq_refl eq_refl eq_refl)
    as (w1 & w2 & w3 & H1 & H2 & H3 & Hlog & _).
  - simpl. lia.
  - exists w1, w2, w3. split; [exact H1|]. split; [exact H2|]. split; [exact H3 | exact Hlog].
Defined.

Lemma bounded_emit evs w : bounded w -> bounded (emit evs w).
Proof. intros H s. apply H. Qed.

Lemma bounded_update s f w :
  bounded w ->
  (length (Chan.buf (output (f (heap w s)))) <= Chan.dataqsiz (output (f (heap w s))))%nat ->
  bounded (update s f w).
Proof.
  intros Hb Hf s'. destruct (decide (s = s')) as [<-|Hne].
  - by rewrite heap_update_eq.
  - rewrite heap_update_ne by done. apply Hb.
Qed.

Lemma bounded_writeMessage b s e w w' :
  bounded w -> writeMessage b s e w = Done w' -> bounded w'.
Proof.
  intros Hb. destruct (Chan.closed (output (heap w s))) eqn:Hc.
  - rewrite writeMessage_closed by done. intros [= <-]. by apply bounded_emit.
  - destruct (Chan.full (output (heap w s))) eqn:Hf.
    + rewrite writeMessage_full by done. intros [= <-]. by apply bounded_emit.
    + rewrite writeMessage_room by done. intros [= <-].
      apply bounded_update; [done|]. simpl. rewrite length_app. simpl.
      unfold Chan.full in Hf. apply Nat.leb_gt in Hf. lia.
Qed.

Lemma writeRaw_to_emit r s m w : exists evs, (writeRaw r s m w).1 = emit evs w.
Proof.
  unfold writeRaw. destruct (write_err r); [by eexists|].
  destruct (t m =? websocket.CloseMessage)%Z; [|by eexists].
  eexists. simpl. by rewrite emit_emit.
Qed.

Lemma bounded_writePump_step b sel r s w w' :
  bounded w -> writePump_step b sel r s w = Done w' -> bounded w'.
Proof.
  intros Hb. unfold writePump_step.
  destruct (pump (heap w s)); [|done..].
  destruct sel.
  - unfold Chan.recv. destruct (Chan.buf (output (heap w s))) as [|e rest] eqn:Hq.
    + destruct (Chan.closed (output (heap w s))); [|done].
      cbn [mbind outcome_bind]. intros [= <-]. unfold close.
      destruct (writeRaw_to_emit r s close_envelope
                  (update s (set_output (output (heap w s))) w)) as (evs & ->).
      apply bounded_update; [|heap_norm; apply Hb].
      apply bounded_emit, bounded_update; [done | apply Hb].
    + cbn [mbind outcome_bind].
      set (w0 := update s _ w).
      assert (Hb0 : bounded w0).
      { apply bounded_update; [done|]. simpl. specialize (Hb s). rewrite Hq in Hb.
        simpl in Hb. lia. }
      destruct (writeRaw_to_emit r s e w0) as (evs & Hraw).
      destruct (writeRaw r s e w0) as [w1 [err|]]; simpl in Hraw; subst w1.
      * unfold call_errorHandler. destruct (errorHandler b); [|done].
        cbn [mbind outcome_bind]. intros [= <-].
        apply bounded_update; [by do 2 apply bounded_emit|].
        heap_norm. apply (Hb0 s).
      * intros [= <-]. by apply bounded_emit.
  - intros [= <-]. unfold ping.
    destruct (writeRaw_to_emit r s ping_envelope w) as (evs & ->). by apply bounded_emit.
Qed.

Lemma bounded_exec_op b op h w h' w' :
  bounded w -> exec_op b op h w = Done (h', w') -> bounded w'.
Proof.
  intros Hb. destruct op; simpl; try (by intros [= <- <-]).
  - destruct (Close b s w) as [w1| |] eqn:Hcl; [|done..]. simpl. intros [= <- <-].
    by eapply bounded_writeMessage.
  - unfold Chan.close. destruct (Chan.closed (output (heap w s))); [done|].
    simpl. intros [= <- <-]. apply bounded_update; [done | apply Hb].
  - unfold recv_exited. destruct (pump (heap w s)); try done.
    simpl. intros [= <- <-]. apply bounded_emit, bounded_update; [done | apply Hb].
  - unfold Chan.send. destruct (Chan.closed (output (heap w s))); [done|].
    destruct (Chan.full (output (heap w s))) eqn:Hf; [done|].
    simpl. intros [= <- <-]. apply bounded_update; [done|]. simpl.
    rewrite length_app. simpl. unfold Chan.full in Hf. apply Nat.leb_gt in Hf. lia.
Qed.

(** X7: no operation makes a queue hold more than its capacity: if every
    queue is within its capacity, it still is after [writeMessage], after
    any statement of the hub's loop, after any turn of a write loop, and
    after [Set]. *)
Theorem queues_stay_within_capacity b w :
  bounded w ->
  (forall s e w', writeMessage b s e w = Done w' -> bounded w') /\
  (forall op h h' w', exec_op b op h w = Done (h', w') -> bounded w') /\
  (forall sel r s w', writePump_step b sel r s w = Done w' -> bounded w') /\
  (forall s key val, bounded (Set_ s key val w)).
Proof.
  intros Hb. split; [intros s e w'; by apply bounded_writeMessage|].
  split; [intros op h h' w'; by apply bounded_exec_op|].
  split; [intros sel r s w'; by apply bounded_writePump_step|].
  intros s key val. apply bounded_update; [done | apply Hb].
Qed.

Lemma queues_stay_within_capacity_witness :
  bounded (world_of st_full) /\
  forall w', writeMessage b_on s1 to_a (world_of st_full) = Done w' -> bounded w'.
Proof.
  assert (Hb : bounded (world_of st_full)) by (intros s; simpl; lia).
  split; [exact Hb|].
  destruct (queues_stay_within_capacity b_on (world_of st_full) Hb) as (Hw & _).
  exact (Hw s1 to_a).
Defined.

(** X8: [writeMessage], and so [Write], [WriteBinary] and [Close], returns
    in every state, with or without an error callback and whether the queue
    is open, full or closed; it leaves every other session, the key-value
    store, the write loop and the queue's capacity and closed flag as they
    were, and the queue holds what it held, with the envelope added at the
    end or not. *)
Theorem writeMessage_always_returns b s e w :
  exists w', writeMessage b s e w = Done w' /\
    (forall s', s' <> s -> heap w' s' = heap w s') /\
    keys (heap w' s) = keys (heap w s) /\
    pump (heap w' s) = pump (heap w s) /\
    Chan.closed (output (heap w' s)) = Chan.closed (output (heap w s)) /\
    Chan.dataqsiz (output (heap w' s)) = Chan.dataqsiz (output (heap w s)) /\
    (Chan.buf (output (heap w' s)) = Chan.buf (output (heap w s)) \/
     Chan.buf (output (heap w' s)) = Chan.buf (output (heap w s)) ++ [e]).
Proof.
  destruct (Chan.closed (output (heap w s))) eqn:Hc.
  - rewrite writeMessage_closed by done. eexists. split; [done|]. simpl.
    rewrite Hc. repeat split; auto.
  - destruct (Chan.full (output (heap w s))) eqn:Hf.
    + rewrite writeMessage_full by done. eexists. split; [done|]. simpl.
      rewrite Hc. repeat split; auto.
    + rewrite writeMessage_room by done. eexists. split; [done|].
      split; [intros s' Hne; by apply heap_update_ne|].
      rewrite heap_update_eq. simpl. rewrite Hc. repeat split; auto.
Qed.

(** X9: a turn of the write loop of a session leaves every other session,
    the key-value store and the queue's capacity and closed flag as they
    were; it takes at most the oldest envelope from the queue, never adds
    one, and keeps the calls recorded before it. *)
Theorem writePump_step_frame b sel r s w w' :
  writePump_step b sel r s w = Done w' ->
  (forall s', s' <> s -> heap w' s' = heap w s') /\
  keys (heap w' s) = keys (heap w s) /\
  Chan.closed (output (heap w' s)) = Chan.closed (output (heap w s)) /\
  Chan.dataqsiz (output (heap w' s)) = Chan.dataqsiz (output (heap w s)) /\
  (Chan.buf (output (heap w' s)) = Chan.buf (output (heap w s)) \/
   exists e, Chan.buf (output (heap w s)) = e :: Chan.buf (output (heap w' s))) /\
  exists evs, log w' = log w ++ evs.
Proof.
  unfold writePump_step. destruct (pump (heap w s)); [|done..].
  destruct sel.
  - unfold Chan.recv. destruct (Chan.buf (output (heap w s))) as [|e rest] eqn:Hq.
    + destruct (Chan.closed (output (heap w s))) eqn:Hc; [|done].
      cbn [mbind outcome_bind]. intros [= <-]. unfold close.
      destruct (writeRaw_to_emit r s close_envelope
                  (update s (set_output (output (heap w s))) w)) as (evs & ->).
      split; [intros s' Hne; by heap_norm|]. heap_norm. rewrite Hq.
      repeat split; auto. by exists evs.
    + cbn [mbind outcome_bind]. set (w0 := update s _ w).
      destruct (writeRaw_to_emit r s e w0) as (evs & Hraw).
      destruct (writeRaw r s e w0) as [w1 [err|]]; simpl in Hraw; subst w1.
      * unfold call_errorHandler. destruct (errorHandler b); [|done].
        cbn [mbind outcome_bind]. intros [= <-].
        split; [intros s' Hne; unfold w0; by heap_norm|]. unfold w0. heap_norm.
        repeat split; eauto. eexists. simpl. by rewrite <- app_assoc.
      * intros [= <-].
        split; [intros s' Hne; unfold w0; by heap_norm|]. unfold w0. heap_norm.
        repeat split; eauto.
  - intros [= <-]. unfold ping.
    destruct (writeRaw_to_emit r s ping_envelope w) as (evs & ->).
    repeat split; eauto.
Qed.

Lemma writePump_step_frame_witness :
  exists w', writePump_step b_on CaseOutput ok_io s1 (world_of st_full) = Done w' /\
    heap w' s2 = st_full /\ Chan.buf (output (heap w' s1)) = [].
Proof.
  eexists. split; [reflexivity|].
  destruct (writePump_step_frame b_on CaseOutput ok_io s1 (world_of st_full) _ eq_refl)
    as (Hfr & _).
  split; [apply Hfr; discriminate | reflexivity].
Defined.

(** X10: a write loop leaves its loop in two ways only: it found its queue
    closed and drained, or the connection returned an error for an envelope
    taken from the queue (for the frame, or for the close of the connection
    after a close frame); a ping never ends it, nor does a delivered
    envelope of any kind. *)
Theorem writePump_leaves_loop_only b sel r s w w' :
  pump (heap w s) = InLoop ->
  writePump_step b sel r s w = Done w' ->
  pump (heap w' s) <> InLoop ->
  sel = CaseOutput /\
  ((Chan.buf (output (heap w s)) = [] /\ Chan.closed (output (heap w s)) = true) \/
   exists e rest, Chan.buf (output (heap w s)) = e :: rest /\
     (write_err r <> None \/ (t e = websocket.CloseMessage /\ close_err r <> None))).
Proof.
  intros Hp. unfold writePump_step. rewrite Hp. destruct sel.
  - unfold Chan.recv. destruct (Chan.buf (output (heap w s))) as [|e rest] eqn:Hq.
    + destruct (Chan.closed (output (heap w s))) eqn:Hc; [|done].
      intros _ _. split; [done|]. by left.
    + cbn [mbind outcome_bind]. intros Hstep Hleft. split; [done|]. right.
      exists e, rest. split; [done|]. unfold writeRaw in Hstep.
      destruct (write_err r) as [err|]; [by left|]. right.
      destruct (Z.eqb_spec (t e) websocket.CloseMessage) as [Heq|Hne].
      * split; [done|]. destruct (close_err r); [done|].
        injection Hstep as <-. exfalso. apply Hleft. by heap_norm.
      * injection Hstep as <-. exfalso. apply Hleft. by heap_norm.
  - intros [= <-] Hleft. exfalso. apply Hleft. unfold ping. by heap_norm.
Qed.

Lemma writePump_leaves_loop_only_witness :
  exists w', writePump_step b_on CaseOutput broken_io s1 (world_of st_full) = Done w' /\
    pump (heap w' s1) = SendingExited /\ write_err broken_io <> None.
Proof.
  eexists. split; [reflexivity|]. split; [reflexivity|].
  destruct (writePump_leaves_loop_only b_on CaseOutput broken_io s1 (world_of st_full) _
              eq_refl eq_refl) as (_ & [[Hb _]|(e & rest & _ & [Hw|[_ Hc]])]).
  - discriminate.
  - discriminate Hb.
  - exact Hw.
  - by destruct Hc.
Defined.

(** ** More on the registry *)

Lemma sessions_register_unRegister h s :
  Closed h = false ->
  s ∉ default [] (sessions h !! userId s) ->
  sessions (unRegister (register h s) s)
    = <[userId s := default [] (sessions h !! userId s)]> (sessions h).
Proof.
  intros Hopen Hnot.
  rewrite (sessions_unRegister (register h s) s (default [] (sessions h !! userId s)) []).
  - rewrite sessions_register by done. rewrite app_nil_r. apply insert_insert_eq.
  - by rewrite Closed_register.
  - rewrite sessions_register by done. apply lookup_insert_eq.
  - done.
Qed.

(** X11: on an open hub, unregistering a session right after registering it
    gives back the list its user had, when the session was not listed
    before; the user's entry itself stays, so that a user whose only
    session came and went is left with an empty list. *)
Theorem register_then_unRegister h s :
  Closed h = false ->
  s ∉ default [] (sessions h !! userId s) ->
  sessions (unRegister (register h s) s)
    = <[userId s := default [] (sessions h !! userId s)]> (sessions h) /\
  (sessions h !! userId s = None ->
   sessions (unRegister (register h s) s) !! userId s = Some []).
Proof.
  intros Hopen Hnot.
  pose proof (sessions_register_unRegister h s Hopen Hnot) as Heq.
  split; [exact Heq|]. intros Hnone. rewrite Heq, Hnone. apply lookup_insert_eq.
Qed.

Lemma register_then_unRegister_witness :
  sessions (unRegister (register hub_a s3) s3) !! "b" = Some [] /\
  sessions (unRegister (register hub_a s3) s3) !! "a" = Some [s1].
Proof.
  destruct (register_then_unRegister hub_a s3 eq_refl) as (Heq & Hslot).
  - apply not_elem_of_nil.
  - split; [exact (Hslot eq_refl)|]. rewrite Heq. reflexivity.
Defined.

Lemma own_user_register h s : own_user h -> own_user (register h s).
Proof.
  intros Hown. destruct (Closed h) eqn:Hopen.
  { unfold register. by rewrite Hopen. }
  intros u ss s'. rewrite sessions_register by done.
  destruct (decide (userId s = u)) as [<-|Hne].
  - rewrite lookup_insert_eq. intros [= <-] [Hin|Hin]%elem_of_app.
    + destruct (sessions h !! userId s) as [ss|] eqn:Hl; [|by apply elem_of_nil in Hin].
      by apply (Hown _ ss).
    + by apply list_elem_of_singleton in Hin as ->.
  - rewrite lookup_insert_ne by done. apply Hown.
Qed.

Lemma own_user_unRegister h s : own_user h -> own_user (unRegister h s).
Proof.
  intros Hown. unfold unRegister. destruct (Closed h); [done|].
  destruct (sessions h !! userId s) as [ss|] eqn:Hl; [|done].
  destruct (index_of s ss) as [i|] eqn:Hi; [|done].
  apply index_of_Some in Hi as (l1 & l2 & -> & _ & ->).
  intros u ss' s'. simpl. destruct (decide (userId s = u)) as [<-|Hne].
  - rewrite lookup_insert_eq. intros [= <-] Hin. apply (Hown _ _ _ Hl).
    rewrite elem_of_app in Hin. rewrite elem_of_app, elem_of_cons. tauto.
  - rewrite lookup_insert_ne by done. apply Hown.
Qed.

Lemma own_user_after_events evs : forall h,
  own_user h -> own_user (fold_left apply_reg evs h).
Proof.
  induction evs as [|[s|s] evs IH]; intros h Hown; [done|..]; simpl; apply IH.
  - by apply own_user_register.
  - by apply own_user_unRegister.
Qed.

Lemma open_after_events evs : forall h,
  Closed (fold_left apply_reg evs h) = Closed h.
Proof.
  induction evs as [|[s|s] evs IH]; intros h; [done|..]; simpl; rewrite IH.
  - apply Closed_register.
  - apply Closed_unRegister.
Qed.

(** X12: whatever register and unregister events a new hub has processed,
    every session is listed under its own user and the hub is open; so a
    broadcast that names users sends only to sessions of the users it
    names. *)
Theorem broadcast_reaches_only_named_users evs order e :
  let h := fold_left apply_reg evs NewHub in
  own_user h /\ Closed h = false /\
  (order ≡ₚ map_to_list (sessions h) -> userIds e <> [] ->
   forall s, s ∈ targets (case_broadcast order h e) -> userId s ∈ userIds e).
Proof.
  intros h.
  assert (Hown : own_user h).
  { apply own_user_after_events. intros u ss s. simpl. by rewrite lookup_empty. }
  assert (Hopen : Closed h = false) by (unfold h; by rewrite open_after_events).
  split; [done|]. split; [done|].
  intros Hperm Hne s Hs. apply elem_of_targets in Hs as (e' & He').
  apply elem_of_case_broadcast in He' as (s' & u & ss & Heq & Hl & Hin & _ & Hor);
    [|done|done].
  destruct Hor as [Hnil|Hu]; [done|].
  injection Heq as -> _. by rewrite (Hown u ss s' Hl Hin).
Qed.

Lemma broadcast_reaches_only_named_users_witness :
  own_user hub_ab /\ Closed hub_ab = false /\
  targets (case_broadcast (map_to_list (sessions hub_ab)) hub_ab to_a) = [s1; s2] /\
  (forall s, s ∈ targets (case_broadcast (map_to_list (sessions hub_ab)) hub_ab to_a) ->
             userId s ∈ ["a"]).
Proof.
  destruct (broadcast_reaches_only_named_users [Reg s1; Reg s2; Reg s3]
              (map_to_list (sessions hub_ab)) to_a) as (Hown & Hopen & H).
  split; [exact Hown|]. split; [exact Hopen|]. split; [reflexivity|].
  apply H; [reflexivity | discriminate].
Defined.

Lemma targets_app ops1 ops2 : targets (ops1 ++ ops2) = targets ops1 ++ targets ops2.
Proof. unfold targets. apply omap_app. Qed.

Lemma targets_fan_out e ss :
  targets (fan_out e ss) = List.filter (fun s => negb (rejected e s)) ss.
Proof.
  induction ss as [|s ss IH]; [done|].
  unfold fan_out in *. simpl. rewrite targets_app, IH.
  by destruct (rejected e s).
Qed.

Lemma targets_flat_map {A} (f : A -> list hub_op) (l : list A) :
  targets (flat_map f l) = flat_map (fun x => targets (f x)) l.
Proof.
  induction l as [|x l IH]; [done|]. simpl. by rewrite targets_app, IH.
Qed.

Lemma filter_flat_map {A B} (p : B -> bool) (f : A -> list B) (l : list A) :
  List.filter p (flat_map f l) = flat_map (fun x => List.filter p (f x)) l.
Proof.
  induction l as [|x l IH]; [done|]. simpl. by rewrite List.filter_app, IH.
Qed.

Lemma filter_all {A} (l : list A) : List.filter (fun _ => true) l = l.
Proof. induction l as [|x l IH]; [done|]. simpl. by rewrite IH. Qed.

(** X13: a filter only takes recipients away: the sessions a filtered
    broadcast sends to are those the same broadcast without the filter
    would send to, in the same order and as often, less the sessions the
    filter refuses. *)
Theorem filter_only_removes_recipients order h e fn :
  filter e = Some fn ->
  targets (case_broadcast order h e)
    = List.filter fn (targets (case_broadcast order h (no_filter e))).
Proof.
  intros Hfn. unfold case_broadcast. destruct (Closed h); [done|].
  assert (Hfan : forall ss, targets (fan_out e ss)
                            = List.filter fn (targets (fan_out (no_filter e) ss))).
  { intros ss. rewrite !targets_fan_out. unfold rejected. rewrite Hfn. simpl.
    rewrite filter_all. apply List.filter_ext. intros s. by destruct (fn s). }
  simpl userIds. destruct (0 <? length (userIds e))%nat.
  - rewrite !targets_flat_map, filter_flat_map. apply flat_map_ext. intros u.
    destruct (sessions h !! u); [apply Hfan | done].
  - rewrite !targets_flat_map, filter_flat_map. apply flat_map_ext. intros [u ss].
    apply Hfan.
Qed.

Lemma filter_only_removes_recipients_witness :
  let only1 := {| t := websocket.TextMessage; msg := []; userIds := ["a"];
                  filter := Some (fun s => bool_decide (s = s1)) |} in
  targets (case_broadcast (map_to_list (sessions hub_ab)) hub_ab only1) = [s1].
Proof.
  intros only1.
  rewrite (filter_only_removes_recipients _ hub_ab only1 _ eq_refl). reflexivity.
Defined.

Lemma count_occ_filter (p : Session -> bool) (l : list Session) (s : Session) :
  count_occ Session_eq_dec (List.filter p l) s
    = if p s then count_occ Session_eq_dec l s else 0%nat.
Proof.
  induction l as [|x l IH]; simpl; [by destruct (p s)|].
  destruct (p x) eqn:Hx; simpl; destruct (Session_eq_dec x s) as [->|Hne];
    rewrite ?IH; try done.
  - by rewrite Hx.
  - by rewrite Hx.
Qed.

(** X14: a broadcast that names a user several times sends to each of that
    user's sessions once per mention: on an open hub where sessions are
    listed under their own user, a session the filter accepts is sent the
    envelope as often as its user is named, times the number of times it is
    listed. *)
Theorem repeated_user_repeats_delivery order h e s :
  Closed h = false ->
  own_user h ->
  userIds e <> [] ->
  accepted e s ->
  count_occ Session_eq_dec (targets (case_broadcast order h e)) s
    = (count_occ String.string_dec (userIds e) (userId s) * listed h (userId s) s)%nat.
Proof.
  intros Hopen Hown Hne Hacc. unfold case_broadcast. rewrite Hopen.
  destruct (userIds e) as [|u0 us] eqn:Hus; [done|]. cbn [length Nat.ltb Nat.leb].
  rewrite targets_flat_map. clear Hus Hne.
  apply rejected_false in Hacc.
  induction (u0 :: us) as [|u l IH]; [done|].
  cbn [flat_map]. rewrite count_occ_app, IH. clear IH.
  assert (Hu : count_occ Session_eq_dec
                 (targets match sessions h !! u with
                          | Some ss => fan_out e ss
                          | None => []
                          end) s
               = if decide (u = userId s) then listed h (userId s) s else 0%nat).
  { unfold listed. destruct (decide (u = userId s)) as [->|Hu].
    - destruct (sessions h !! userId s) as [ss|]; [|done].
      rewrite targets_fan_out, count_occ_filter. by rewrite Hacc.
    - destruct (sessions h !! u) as [ss|] eqn:Hl; [|done].
      apply count_occ_not_In. rewrite <- list_elem_of_In. intros Hin.
      apply elem_of_targets in Hin as (e' & Hin).
      apply elem_of_fan_out in Hin as (s' & Heq & Hs' & _). injection Heq as -> _.
      apply Hu. symmetry. by apply (Hown u ss). }
  rewrite Hu. simpl. destruct (String.string_dec u (userId s)) as [->|Hu'].
  - rewrite decide_True by done. lia.
  - rewrite decide_False by done. lia.
Qed.

Lemma repeated_user_repeats_delivery_witness :
  let twice := {| t := websocket.TextMessage; msg := []; userIds := ["a"; "a"];
                  filter := None |} in
  count_occ Session_eq_dec
    (targets (case_broadcast (map_to_list (sessions hub_ab)) hub_ab twice)) s1 = 2%nat.
Proof.
  intros twice.
  rewrite (repeated_user_repeats_delivery _ hub_ab twice s1 eq_refl).
  - reflexivity.
  - apply (own_user_after_events [Reg s1; Reg s2; Reg s3] NewHub).
    intros u ss s Hl. simpl in Hl. by rewrite lookup_empty in Hl.
  - discriminate.
  - exact I.
Defined.

(** X15: a closed hub stays closed and does no more routing: whatever
    statement of its loop runs, the flag is still set afterwards, a signal
    sent on [exited] stays sent, every registry entry is either gone or as
    it was, and a broadcast, a register and an unregister event make it do
    nothing. *)
Theorem closed_hub_stays_closed b op h w h' w' order e s :
  Closed h = true ->
  exec_op b op h w = Done (h', w') ->
  Closed h' = true /\
  (exited h = true -> exited h' = true) /\
  (forall u, sessions h' !! u = None \/ sessions h' !! u = sessions h !! u) /\
  Run_case order h (EvBroadcast e) = [] /\
  exec_op b (Register s) h w = Done (h, w) /\
  exec_op b (UnRegister s) h w = Done (h, w).
Proof.
  intros Hc Hop.
  assert (Hreg : forall s0, register h s0 = h) by (intros s0; unfold register; by rewrite Hc).
  assert (Hunreg : forall s0, unRegister h s0 = h)
    by (intros s0; unfold unRegister; by rewrite Hc).
  assert (H3 : Closed h' = true /\ (exited h = true -> exited h' = true) /\
               forall u, sessions h' !! u = None \/ sessions h' !! u = sessions h !! u).
  { destruct op; simpl in Hop.
    - injection Hop as <- <-. repeat split; auto.
    - destruct (Close b s0 w); simplify_eq/=. repeat split; auto.
    - destruct (Chan.close (output (heap w s0))); simplify_eq/=. repeat split; auto.
    - destruct (recv_exited s0 w); simplify_eq/=. repeat split; auto.
    - injection Hop as <- <-. split; [done|]. split; [done|]. intros u. simpl.
      destruct (decide (key = u)) as [->|Hne].
      + left. apply lookup_delete_eq.
      + right. by apply lookup_delete_ne.
    - rewrite Hreg in Hop. injection Hop as <- <-. repeat split; auto.
    - rewrite Hunreg in Hop. injection Hop as <- <-. repeat split; auto.
    - destruct (Chan.send (output (heap w s0)) e0 true) as [[c sel]| |]; simplify_eq/=.
      repeat split; auto.
    - injection Hop as <- <-. repeat split; auto. }
  destruct H3 as (H1 & H2 & H3). split; [done|]. split; [done|]. split; [done|].
  split; [simpl; unfold case_broadcast; by rewrite Hc|].
  simpl. by rewrite Hreg, Hunreg.
Qed.

Lemma closed_hub_stays_closed_witness :
  exec_op b_on (Register s1) hub_done (world_of st_empty) = Done (hub_done, world_of st_empty) /\
  Run_case [] hub_done (EvBroadcast to_all) = [].
Proof.
  destruct (closed_hub_stays_closed b_on (DeleteKey "a") hub_done (world_of st_empty)
              _ _ [] to_all s1 eq_refl eq_refl) as (_ & _ & _ & Hb & Hr & _).
  exact (conj Hr Hb).
Defined.

(** ** Connections coming and going *)

Lemma count_reg_pos evs s : (0 < count_reg evs s)%nat <-> Reg s ∈ evs.
Proof.
  induction evs as [|ev evs IH].
  - unfold count_reg. simpl. split; [lia | by intros ?%elem_of_nil].
  - rewrite count_reg_cons, elem_of_cons. destruct ev as [s'|s'].
    + destruct (decide (s' = s)) as [->|Hne].
      * split; [by left | lia].
      * rewrite Nat.add_0_l, IH. split; [by right|]. intros [[=]|?]; done.
    + rewrite Nat.add_0_l, IH. split; [by right|]. intros [[=]|?]; done.
Qed.

Lemma count_unreg_pos evs s : (0 < count_unreg evs s)%nat <-> Unreg s ∈ evs.
Proof.
  induction evs as [|ev evs IH].
  - unfold count_unreg. simpl. split; [lia | by intros ?%elem_of_nil].
  - rewrite count_unreg_cons, elem_of_cons. destruct ev as [s'|s'].
    + rewrite Nat.add_0_l, IH. split; [by right|]. intros [[=]|?]; done.
    + destruct (decide (s' = s)) as [->|Hne].
      * split; [by left | lia].
      * rewrite Nat.add_0_l, IH. split; [by right|]. intros [[=]|?]; done.
Qed.

Lemma count_reg_NoDup evs s : NoDup evs -> (count_reg evs s <= 1)%nat.
Proof.
  induction 1 as [|ev evs Hnot Hnd IH].
  - unfold count_reg. simpl. lia.
  - rewrite count_reg_cons. destruct ev as [s'|s']; [|lia].
    destruct (decide (s' = s)) as [->|Hne]; [|lia].
    assert (~ (0 < count_reg evs s)%nat) by (by rewrite count_reg_pos). lia.
Qed.

Lemma count_unreg_NoDup evs s : NoDup evs -> (count_unreg evs s <= 1)%nat.
Proof.
  induction 1 as [|ev evs Hnot Hnd IH].
  - unfold count_unreg. simpl. lia.
  - rewrite count_unreg_cons. destruct ev as [s'|s']; [lia|].
    destruct (decide (s' = s)) as [->|Hne]; [|lia].
    assert (~ (0 < count_unreg evs s)%nat) by (by rewrite count_unreg_pos). lia.
Qed.

Lemma lifecycles_follow evs : lifecycles evs -> unregister_follows_register evs.
Proof.
  intros [Hnd Hafter] pre s post ->.
  pose proof (Hafter pre s post eq_refl) as Hreg. apply count_reg_pos in Hreg.
  apply NoDup_app in Hnd as (_ & Hdisj & _).
  assert (~ (0 < count_unreg pre s)%nat).
  { rewrite count_unreg_pos. intros Hin. apply (Hdisj _ Hin). by left. }
  lia.
Qed.

(** X16: when sessions register once, and unregister once and only after
    registering, as the connection handler makes them, the registry of a
    hub that started empty lists exactly the sessions that registered and
    have not unregistered, each once and under its own user. *)
Theorem registry_lists_live_sessions evs :
  lifecycles evs ->
  let h := fold_left apply_reg evs NewHub in
  forall s,
    (s ∈ default [] (sessions h !! userId s) <-> Reg s ∈ evs /\ Unreg s ∉ evs) /\
    (listed h (userId s) s <= 1)%nat /\
    (forall u, u <> userId s -> listed h u s = 0%nat).
Proof.
  intros Hlife h s.
  pose proof (lifecycles_follow evs Hlife) as Hwf. destruct Hlife as [Hnd _].
  assert (Hown : forall u, listed h u s
            = if decide (userId s = u) then live_registrations evs s 0 else 0%nat).
  { intros u. unfold h. rewrite listed_after_events by done.
    unfold listed at 1 2. simpl. by rewrite lookup_empty. }
  assert (Hbal : (live_registrations evs s 0 + count_unreg evs s = 0 + count_reg evs s)%nat).
  { apply live_registrations_balance. intros pre post Heq. by apply (Hwf pre s post). }
  pose proof (count_reg_NoDup evs s Hnd) as Hr1.
  pose proof (count_unreg_NoDup evs s Hnd) as Hu1.
  pose proof (count_reg_pos evs s) as Hrp. pose proof (count_unreg_pos evs s) as Hup.
  pose proof (Hown (userId s)) as Hl. rewrite decide_True in Hl by done.
  split; [|split].
  - rewrite list_elem_of_In, (count_occ_In Session_eq_dec). fold (listed h (userId s) s).
    rewrite Hl. split.
    + intros Hpos. split; [apply Hrp; lia|]. intros Hin. apply Hup in Hin. lia.
    + intros [Hin Hnin]. apply Hrp in Hin.
      assert (~ (0 < count_unreg evs s)%nat) by (by rewrite Hup). lia.
  - rewrite Hl. lia.
  - intros u Hne. rewrite Hown. by rewrite decide_False.
Qed.

Lemma registry_lists_live_sessions_witness :
  let evs := [Reg s1; Reg s2; Unreg s1] in
  s2 ∈ default [] (sessions (fold_left apply_reg evs NewHub) !! "a") /\
  s1 ∉ default [] (sessions (fold_left apply_reg evs NewHub) !! "a").
Proof.
  intros evs.
  assert (Hlife : lifecycles evs).
  { split.
    - repeat (apply NoDup_cons; split;
                [intros H; repeat (apply elem_of_cons in H as [H|H]; [by inversion H|]);
                 by apply elem_of_nil in H|]).
      apply NoDup_nil_2.
    - intros pre s post Heq. unfold evs in Heq.
      destruct pre as [|e1 [|e2 [|e3 [|e4 pre]]]]; simplify_eq/=.
      by left. }
  pose proof (registry_lists_live_sessions evs Hlife s2) as (H2 & _).
  pose proof (registry_lists_live_sessions evs Hlife s1) as (H1 & _).
  split.
  - apply H2. split; [right; by left|]. intros H.
    repeat (apply elem_of_cons in H as [H|H]; [by inversion H|]).
    by apply elem_of_nil in H.
  - intros Hin. apply H1 in Hin as [_ Hnot]. apply Hnot. right; right; by left.
Defined.

(** ** The broker: hubs by appId, shutdown *)

(** X17: [getHub] creates a hub for an appId once: a second call returns the
    hub of the first and changes nothing; the hubs of other appIds and the
    error callback are never touched, and an appId that has a hub keeps it. *)
Theorem getHub_reuses_hub b app :
  getHub (getHub b app).1 app = getHub b app /\
  hubs (getHub b app).1 !! app = Some (getHub b app).2 /\
  (forall app', app' <> app -> hubs (getHub b app).1 !! app' = hubs b !! app') /\
  errorHandler (getHub b app).1 = errorHandler b /\
  (forall p, hubs b !! app = Some p -> getHub b app = (b, p)).
Proof.
  destruct (hubs b !! app) as [p|] eqn:Hp.
  - rewrite !(getHub_known b app p Hp). cbn [fst snd].
    rewrite (getHub_known b app p Hp). split; [done|]. split; [done|].
    split; [done|]. split; [done|]. by intros p' [= <-].
  - rewrite !(getHub_new b app Hp). cbn [fst snd]. split.
    + unfold getHub. simpl. by rewrite lookup_insert_eq.
    + split; [apply lookup_insert_eq|].
      split; [intros app' Hne; by apply lookup_insert_ne|]. done.
Qed.

Lemma getHub_reuses_hub_witness :
  hubs (getHub b_open "chat").1 !! "app" = hubs b_open !! "app" /\
  getHub b_open "app" = (b_open, {| hub := hub_ab; pending := [] |}).
Proof.
  destruct (getHub_reuses_hub b_open "chat") as (_ & _ & Hother & _).
  destruct (getHub_reuses_hub b_open "app") as (_ & _ & _ & _ & Hsame).
  split; [apply Hother; discriminate | exact (Hsame _ eq_refl)].
Defined.

(** What [Hub.Close] returns when the sessions can be torn down. *)
Lemma Hub_Close_done b r order p w :
  errorHandler b = true ->
  exited (hub p) = false -> pending p = [] ->
  order ≡ₚ map_to_list (sessions (hub p)) ->
  NoDup (entry_sessions order) ->
  (forall s, s ∈ entry_sessions order -> ready w s) ->
  exists w', Hub_Close b r order p w = Done (hubproc_done, w') /\
    (forall s, s ∈ entry_sessions order -> gone w' s) /\
    (forall s, s ∉ entry_sessions order -> heap w' s = heap w s).
Proof.
  intros Hh Hex Hpend Hperm Hnd Hready.
  set (h0 := {| closed := 1; exited := exited (hub p); sessions := sessions (hub p) |}).
  destruct (teardown_entries_run b r order Hh h0 w Hnd Hready) as (w' & Hrun & Hgone & Hfr).
  destruct (drop_entries_flags order h0) as [Hcl Hexd].
  assert (Hemp : sessions (drop_entries order h0) = ∅).
  { apply map_eq. intros k. rewrite drop_entries_lookup, lookup_empty.
    case_decide as Hk; [done|]. simpl.
    destruct (sessions (hub p) !! k) as [ss|] eqn:Hl; [|done].
    exfalso. apply Hk. apply list_elem_of_fmap. exists (k, ss). split; [done|].
    rewrite Hperm. by apply elem_of_map_to_list. }
  exists w'. split; [|by split].
  assert (Hrecv : hub_recv order EvExit p
            = Done {| hub := hub p;
                      pending := StoreClosed :: teardown_entries order ++ [SendHubExited] |}).
  { unfold hub_recv. by rewrite Hex, Hpend. }
  unfold Hub_Close. rewrite Hex, Hrecv. cbn [mbind outcome_bind pending hub].
  cbn [run_ops exec_op mbind outcome_bind]. fold h0.
  rewrite run_ops_app, Hrun. cbn [mbind outcome_bind run_ops exec_op exited].
  unfold hubproc_done, hub_done. by rewrite Hcl, Hemp.
Qed.

(** X18: once [Hub.Close] has returned, the hub's loop takes no event any
    more, so that a later send on its register, unregister or broadcast
    channel never completes, while [PushMessage] for its appId returns the
    "hub has closed" error instead of waiting, and changes nothing; a
    second [Hub.Close] on the hub panics. *)
Theorem after_Hub_Close b r order app p w :
  errorHandler b = true ->
  hubs b !! app = Some p ->
  exited (hub p) = false -> pending p = [] ->
  order ≡ₚ map_to_list (sessions (hub p)) ->
  NoDup (entry_sessions order) ->
  (forall s, s ∈ entry_sessions order -> ready w s) ->
  exists p' w',
    Hub_Close b r order p w = Done (p', w') /\
    Closed (hub p') = true /\ sessions (hub p') = ∅ /\
    (forall order' ev, hub_recv order' ev p' = Blocks) /\
    (forall order' users m fn,
       let b' := set_hubs (<[app := p']> (hubs b)) b in
       PushMessage order' b' app users m fn = Done (b', Some (ErrHubClosed app))) /\
    (forall r' order' w'',
       Hub_Close b r' order' p' w'' = Panics "close of closed channel").
Proof.
  intros Hh Hp Hex Hpend Hperm Hnd Hready.
  destruct (Hub_Close_done b r order p w) as (w' & Hclose & _); [done..|].
  exists hubproc_done, w'. split; [done|]. split; [done|]. split; [done|].
  split; [done|]. split; [|done].
  intros order' users m fn b'. unfold PushMessage.
  rewrite (getHub_known b' app hubproc_done); [done|]. apply lookup_insert_eq.
Qed.

Lemma after_Hub_Close_witness :
  exists p' w',
    Hub_Close b_open (fun _ => ok_io) (map_to_list (sessions hub_ab))
      {| hub := hub_ab; pending := [] |} (world_of st_empty) = Done (p', w') /\
    hub_recv [] (EvUnRegister s1) p' = Blocks /\
    PushMessage [] (set_hubs (<[ "app" := p' ]> (hubs b_open)) b_open) "app" ["a"] [] None
      = Done (set_hubs (<[ "app" := p' ]> (hubs b_open)) b_open, Some (ErrHubClosed "app")).
Proof.
  destruct (after_Hub_Close b_open (fun _ => ok_io) (map_to_list (sessions hub_ab)) "app"
              {| hub := hub_ab; pending := [] |} (world_of st_empty)
              eq_refl eq_refl eq_refl eq_refl (reflexivity _))
    as (p' & w' & Hclose & _ & _ & Hrecv & Hpush & _).
  - apply (bool_decide_unpack _). by vm_compute.
  - intros s _. split; [reflexivity | discriminate].
  - exists p', w'. split; [exact Hclose|]. split; [apply Hrecv | apply Hpush].
Defined.

Lemma close_hubs_done b r orders hs : errorHandler b = true -> forall m w,
  (forall app p, (app, p) ∈ hs ->
     exited (hub p) = false /\ pending p = [] /\
     orders app ≡ₚ map_to_list (sessions (hub p))) ->
  NoDup (flat_map (fun ap => entry_sessions (orders ap.1)) hs) ->
  (forall s, s ∈ flat_map (fun ap => entry_sessions (orders ap.1)) hs -> ready w s) ->
  exists m' w', close_hubs b r orders hs m w = Done (m', w') /\
    (forall app, m' !! app = if decide (app ∈ hs.*1) then Some hubproc_done else m !! app) /\
    (forall s, s ∈ flat_map (fun ap => entry_sessions (orders ap.1)) hs -> gone w' s) /\
    (forall s, s ∉ flat_map (fun ap => entry_sessions (orders ap.1)) hs ->
               heap w' s = heap w s).
Proof.
  intros Hh. induction hs as [|[app p] hs IH]; intros m w Hhubs Hnd Hready.
  - exists m, w. split; [done|]. split.
    { intros app. case_decide as Hin; [by apply elem_of_nil in Hin | done]. }
    split; [|done]. intros s Hs. by apply elem_of_nil in Hs.
  - cbn [flat_map fst] in Hnd, Hready.
    apply NoDup_app in Hnd as (Hnd1 & Hdisj & Hnd2).
    destruct (Hhubs app p) as (Hex & Hpend & Hperm); [by left|].
    destruct (Hub_Close_done b r (orders app) p w Hh Hex Hpend Hperm Hnd1)
      as (w1 & Hclose & Hgone1 & Hfr1).
    { intros s Hs. apply Hready, elem_of_app. by left. }
    destruct (IH (<[app := hubproc_done]> m) w1) as (m' & w' & Hrun & Hm' & Hgone & Hfr).
    { intros app' p' Hin. apply Hhubs. by right. }
    { done. }
    { intros s Hs. unfold ready. rewrite Hfr1.
      - apply Hready, elem_of_app. by right.
      - intros Hin. by apply (Hdisj s). }
    exists m', w'. cbn [close_hubs]. rewrite Hclose. cbn [mbind outcome_bind].
    split; [done|]. split.
    { intros app'. rewrite Hm'. cbn [fmap list_fmap fst].
      destruct (decide (app' ∈ hs.*1)) as [Hin|Hnin].
      - rewrite decide_True; [done | by right].
      - destruct (decide (app' = app)) as [->|Hne].
        + rewrite decide_True by (by left). apply lookup_insert_eq.
        + rewrite decide_False by (by intros [?|?]%elem_of_cons).
          by apply lookup_insert_ne. }
    cbn [flat_map fst]. split.
    + intros s [Hs|Hs]%elem_of_app; [|by apply Hgone].
      unfold gone. rewrite Hfr; [by apply Hgone1|]. by apply Hdisj.
    + intros s [Hs1 Hs2]%not_elem_of_app. rewrite Hfr by done. by apply Hfr1.
Qed.

(** X19: [CloseBooster] closes every hub of the broker: when each hub is at
    its select and the registered sessions of all hubs are distinct, have
    open queues and write loops that have not returned, it returns with
    every hub closed and its registry empty, every one of those sessions
    with its queue closed and its write loop returned, no hub added or
    removed, and all other sessions as they were. *)
Theorem CloseBooster_closes_every_hub b r orders hubs_order w :
  errorHandler b = true ->
  hubs_order ≡ₚ map_to_list (hubs b) ->
  (forall app p, (app, p) ∈ hubs_order ->
     exited (hub p) = false /\ pending p = [] /\
     orders app ≡ₚ map_to_list (sessions (hub p))) ->
  NoDup (flat_map (fun ap => entry_sessions (orders ap.1)) hubs_order) ->
  (forall s, s ∈ flat_map (fun ap => entry_sessions (orders ap.1)) hubs_order -> ready w s) ->
  exists b' w',
    CloseBooster b r orders hubs_order w = Done (b', w') /\
    (forall app, hubs b' !! app = (fun _ => hubproc_done) <$> hubs b !! app) /\
    (forall s, s ∈ flat_map (fun ap => entry_sessions (orders ap.1)) hubs_order -> gone w' s) /\
    (forall s, s ∉ flat_map (fun ap => entry_sessions (orders ap.1)) hubs_order ->
               heap w' s = heap w s).
Proof.
  intros Hh Hperm Hhubs Hnd Hready.
  destruct (close_hubs_done b r orders hubs_order Hh (hubs b) w Hhubs Hnd Hready)
    as (m' & w' & Hrun & Hm' & Hgone & Hfr).
  exists (set_hubs m' b), w'. unfold CloseBooster. rewrite Hrun. split; [done|].
  split; [|by split]. intros app. simpl. rewrite Hm'.
  destruct (hubs b !! app) as [p|] eqn:Hp; simpl.
  - rewrite decide_True; [done|]. apply list_elem_of_fmap. exists (app, p).
    split; [done|]. rewrite Hperm. by apply elem_of_map_to_list.
  - rewrite decide_False; [done|]. intros Hin.
    apply list_elem_of_fmap in Hin as ([app' p] & -> & Hin). rewrite Hperm in Hin.
    apply elem_of_map_to_list in Hin. simpl in Hp. congruence.
Qed.

Lemma CloseBooster_closes_every_hub_witness :
  exists b' w',
    CloseBooster b_open (fun _ => ok_io) (fun _ => map_to_list (sessions hub_ab))
      (map_to_list (hubs b_open)) (world_of st_empty) = Done (b', w') /\
    hubs b' !! "app" = Some hubproc_done /\ gone w' s3.
Proof.
  destruct (CloseBooster_closes_every_hub b_open (fun _ => ok_io)
              (fun _ => map_to_list (sessions hub_ab)) (map_to_list (hubs b_open))
              (world_of st_empty) eq_refl (reflexivity _))
    as (b' & w' & Hrun & Hhubs & Hgone & _).
  - intros app p Hin. apply elem_of_map_to_list in Hin.
    unfold b_open in Hin. cbn [hubs] in Hin.
    apply lookup_singleton_Some in Hin as [<- <-]. by repeat split.
  - apply (bool_decide_unpack _). by vm_compute.
  - intros s _. split; [reflexivity | discriminate].
  - exists b', w'. split; [exact Hrun|]. split; [by rewrite Hhubs|].
    apply Hgone. apply (bool_decide_unpack _). by vm_compute.
Defined.

(** ** The connection handler *)


Lemma exited_unRegister h s : exited (unRegister h s) = exited h.
Proof.
  unfold unRegister. destruct (Closed h); [done|].
  destruct (sessions h !! userId s) as [ss|]; [|done]. by destruct (index_of s ss).
Qed.



(** X21: [HandleWs] serves no connection when an identifier is empty, when
    the hub of the appId is closed, or when the upgrade fails: no session
    state changes, nothing is read and no callback is called; with an empty
    identifier the broker is left untouched, and in the other two cases the
    hubs that existed are unchanged, a valid appId without a hub having got
    its hub before the upgrade was tried. *)
Theorem HandleWs_refuses b hs q w :
  ((req_appId q = "" \/ req_userId q = "") ->
   HandleWs b hs q w = Done (b, w, [LogError "invalid params"], [])) /\
  (req_appId q <> "" -> req_userId q <> "" ->
   forall p, hubs b !! req_appId q = Some p -> Closed (hub p) = true ->
   HandleWs b hs q w = Done (b, w, [LogError "hub already closed"], [])) /\
  (req_appId q <> "" -> req_userId q <> "" -> req_upgrade q <> None ->
   Closed (hub (getHub b (req_appId q)).2) = false ->
   HandleWs b hs q w
     = Done ((getHub b (req_appId q)).1, w, [LogError "upgrade fail"], []) /\
   forall app p, hubs b !! app = Some p -> hubs (getHub b (req_appId q)).1 !! app = Some p).
Proof.
  split; [|split].
  - intros Hempty. unfold HandleWs. by rewrite decide_True.
  - intros Happ Huser p Hp Hc. unfold HandleWs. rewrite decide_False by tauto.
    by rewrite (getHub_known b _ p Hp), Hc.
  - intros Happ Huser Hup Hopen. split.
    + unfold HandleWs. rewrite decide_False by tauto.
      destruct (getHub b (req_appId q)) as [b1 p0]. simpl in Hopen. rewrite Hopen.
      by destruct (req_upgrade q).
    + intros app p Hp. unfold getHub.
      destruct (hubs b !! req_appId q) as [p1|] eqn:Hq; [done|]. simpl.
      rewrite lookup_insert_ne; [done|]. intros <-. congruence.
Qed.

Lemma HandleWs_refuses_witness :
  let hs := {| messageHandler := true; connectHandler := true; disconnectHandler := true |} in
  HandleWs b_open hs (mkWsRequest "app" "" None 9 []) (world_of st_empty)
    = Done (b_open, world_of st_empty, [LogError "invalid params"], []) /\
  HandleWs b_closed hs (mkWsRequest "app" "c" None 9 []) (world_of st_empty)
    = Done (b_closed, world_of st_empty, [LogError "hub already closed"], []).
Proof.
  intros hs.
  pose proof (HandleWs_refuses b_open hs (mkWsRequest "app" "" None 9 []) (world_of st_empty))
    as (H1 & _).
  pose proof (HandleWs_refuses b_closed hs (mkWsRequest "app" "c" None 9 [])
                (world_of st_empty)) as (_ & H2 & _).
  split; [apply H1; by right|].
  apply (H2 ltac:(discriminate) ltac:(discriminate) _ eq_refl eq_refl).
Defined.

(** ** The request helper *)

(** X22: [StringParam] answers the empty string for the empty name without
    looking at the request, reads the query of a GET request and the posted
    form of any other; [StringParamDefault] returns the default exactly when
    [StringParam] returns the empty string, so that it never returns the
    empty string when the default is not empty. *)
Theorem StringParamDefault_fills_empty Method Query PostForm param defaultVal :
  StringParam Method Query PostForm "" = "" /\
  (param <> "" -> Method = "GET" -> StringParam Method Query PostForm param = Query param) /\
  (param <> "" -> Method <> "GET" ->
   StringParam Method Query PostForm param = PostForm param) /\
  (StringParam Method Query PostForm param = "" ->
   StringParamDefault Method Query PostForm param defaultVal = defaultVal) /\
  (StringParam Method Query PostForm param <> "" ->
   StringParamDefault Method Query PostForm param defaultVal
     = StringParam Method Query PostForm param) /\
  (defaultVal <> "" -> StringParamDefault Method Query PostForm param defaultVal <> "").
Proof.
  unfold StringParamDefault. split; [done|].
  split; [intros Hp Hm; unfold StringParam; by rewrite decide_False, decide_True|].
  split; [intros Hp Hm; unfold StringParam; by rewrite !decide_False|].
  split; [intros ->; by rewrite decide_True|].
  split; [intros Hne; by rewrite decide_False|].
  intros Hd. by case_decide.
Qed.

Lemma StringParamDefault_fills_empty_witness :
  let Query := fun k : string => if decide (k = "appId") then "chat" else "" in
  StringParam "GET" Query (fun _ => "posted") "appId" = "chat" /\
  StringParamDefault "GET" Query (fun _ => "posted") "userId" "guest" = "guest".
Proof.
  intros Query.
  pose proof (StringParamDefault_fills_empty "GET" Query (fun _ => "posted") "appId" "guest")
    as (_ & Hq & _).
  pose proof (StringParamDefault_fills_empty "GET" Query (fun _ => "posted") "userId" "guest")
    as (_ & _ & _ & Hd & _).
  split; [rewrite Hq; [reflexivity | discriminate | reflexivity] | apply Hd; reflexivity].
Defined.

(** X23: [GetParams] keeps, for every name of the form it reads (the form of
    a GET request, the posted form otherwise), the first of its values, and
    has no other name; so [GetParam] on a session that holds these
    parameters returns the first value of a name and the empty string for a
    name the form lacks.  It panics if a name has no value at all. *)
Theorem GetParams_first_values Method Form PostFormValues :
  let form := if decide (Method = "GET") then Form else PostFormValues in
  (forall params, GetParams Method Form PostFormValues = Done params ->
     forall s key,
       params !! key = hd "" <$> form !! key /\
       GetParam (fun _ => params) s key = default "" (hd "" <$> form !! key)) /\
  ((forall key val, form !! key = Some val -> val <> []) ->
   GetParams Method Form PostFormValues = Done (hd "" <$> form)) /\
  (forall key, form !! key = Some [] ->
   exists reason, GetParams Method Form PostFormValues = Panics reason).
Proof.
  intros form. unfold GetParams. fold form. split; [|split].
  - intros params. case_bool_decide; [|done]. intros [= <-] s key.
    unfold GetParam. by rewrite lookup_fmap.
  - intros Hall. by rewrite bool_decide_eq_true_2.
  - intros key Hkey. rewrite bool_decide_eq_false_2; [by eexists|].
    intros Hall. by apply (Hall key []).
Qed.

Lemma GetParams_first_values_witness :
  let Form := ({[ "room" := ["lobby"; "attic"] ]} : gmap string (list string)) in
  exists params, GetParams "GET" Form ∅ = Done params /\
    GetParam (fun _ => params) s1 "room" = "lobby" /\
    GetParam (fun _ => params) s1 "seat" = "".
Proof.
  intros Form.
  pose proof (GetParams_first_values "GET" Form ∅) as (Hget & Hdone & _).
  assert (Hrun : GetParams "GET" Form ∅ = Done (hd "" <$> Form)).
  { apply Hdone. intros key val Hl. cbn in Hl.
    apply lookup_singleton_Some in Hl as [_ <-]. discriminate. }
  exists (hd "" <$> Form). split; [exact Hrun|].
  split; [by destruct (Hget _ Hrun s1 "room") as [_ ->] |
          by destruct (Hget _ Hrun s1 "seat") as [_ ->]].
Defined.

(** ** From [PushMessage] to the connection *)

(** X24: a message pushed to an open hub at its select reaches the
    connection: when the queues of the sessions it is sent to are open and
    have room, the call returns no error, the hub's sends all complete
    without any report, and a targeted session whose queue was empty then
    writes, at the next turn of its write loop, one text frame carrying
    the payload that was pushed. *)
Theorem pushed_message_reaches_connection order b app users m fn p w s :
  let e := {| t := websocket.TextMessage; msg := m; userIds := users; filter := fn |} in
  let ops := case_broadcast order (hub p) e in
  hubs b !! app = Some p ->
  Closed (hub p) = false -> exited (hub p) = false -> pending p = [] ->
  order ≡ₚ map_to_list (sessions (hub p)) ->
  (forall s', s' ∈ targets ops ->
     Chan.closed (output (heap w s')) = false /\
     (length (Chan.buf (output (heap w s'))) + count_occ Session_eq_dec (targets ops) s'
        <= Chan.dataqsiz (output (heap w s')))%nat) ->
  s ∈ targets ops ->
  Chan.buf (output (heap w s)) = [] ->
  pump (heap w s) = InLoop ->
  exists b' w1 w2,
    PushMessage order b app users m fn = Done (b', None) /\
    hubs b' !! app = Some {| hub := hub p; pending := ops |} /\
    hub_run b (length ops) {| hub := hub p; pending := ops |} w
      = ({| hub := hub p; pending := [] |}, w1) /\
    log w1 = log w /\
    writePump_step b CaseOutput ok_io s w1 = Done w2 /\
    log w2 = log w ++ [SetWriteDeadline s; WriteMessage s websocket.TextMessage m].
Proof.
  intros e ops Hp Hopen Hex Hpend Hperm Hroom Hs Hb Hpump.
  assert (Hall : forall op, op ∈ ops -> exists s', op = Send s' e).
  { intros op Hop. apply elem_of_case_broadcast in Hop as (s' & _ & _ & -> & _); eauto. }
  destruct (hub_run_sends b e (targets ops) (hub p) w Hroom) as (w1 & Hrun & Hlog & Hheap).
  rewrite <- (sends_fmap_targets e ops Hall) in Hrun.
  replace (length (targets ops)) with (length ops) in Hrun
    by (rewrite (sends_fmap_targets e ops Hall) at 1; by rewrite length_fmap).
  assert (Hk : exists k, count_occ Session_eq_dec (targets ops) s = S k).
  { apply list_elem_of_In, (count_occ_In Session_eq_dec) in Hs.
    destruct (count_occ Session_eq_dec (targets ops) s); [lia | eauto]. }
  destruct Hk as (k & Hk).
  assert (Hb1 : Chan.buf (output (heap w1 s)) = e :: replicate k e).
  { rewrite Hheap, Hk. simpl. by rewrite Hb. }
  assert (Hp1 : pump (heap w1 s) = InLoop) by (by rewrite Hheap).
  exists (set_hubs (<[app := {| hub := hub p; pending := ops |}]> (hubs b)) b), w1.
  eexists. split.
  { unfold PushMessage. rewrite (getHub_known b app p Hp), Hopen. unfold hub_recv.
    by rewrite Hex, Hpend. }
  split; [apply lookup_insert_eq|]. split; [done|]. split; [done|].
  rewrite (writePump_step_ok b s e (replicate k e) w1 Hp1 Hb1). split; [done|].
  simpl. by rewrite Hlog.
Qed.

Lemma pushed_message_reaches_connection_witness :
  exists b' w1 w2,
    PushMessage (map_to_list (sessions hub_ab)) b_open "app" ["a"] [] None = Done (b', None) /\
    hub_run b_open 2 {| hub := hub_ab; pending := [Send s1 to_a; Send s2 to_a] |}
      (world_of st_empty) = ({| hub := hub_ab; pending := [] |}, w1) /\
    writePump_step b_open CaseOutput ok_io s2 w1 = Done w2 /\
    log w2 = [SetWriteDeadline s2; WriteMessage s2 websocket.TextMessage []].
Proof.
  destruct (pushed_message_reaches_connection (map_to_list (sessions hub_ab)) b_open "app"
              ["a"] [] None {| hub := hub_ab; pending := [] |} (world_of st_empty) s2
              eq_refl eq_refl eq_refl eq_refl (reflexivity _))
    as (b' & w1 & w2 & Hpush & _ & Hrun & _ & Hstep & Hlog).
  - change (targets _) with [s1; s2]. intros s Hs. split; [reflexivity|].
    apply elem_of_cons in Hs as [->|Hs]; [vm_compute; lia|].
    apply list_elem_of_singleton in Hs as ->. vm_compute; lia.
  - right. by left.
  - reflexivity.
  - reflexivity.
  - exists b', w1, w2. split; [exact Hpush|]. split; [exact Hrun|].
    split; [exact Hstep | exact Hlog].
Defined.

(** ** Close frames at shutdown *)

Lemma writeMessage_always_returns_aux b s e w :
  exists evs w', writeMessage b s e w = Done w' /\ log w' = log w ++ evs.
Proof.
  destruct (Chan.closed (output (heap w s))) eqn:Hc.
  - rewrite writeMessage_closed by done. by eexists _, _.
  - destruct (Chan.full (output (heap w s))) eqn:Hf.
    + rewrite writeMessage_full by done. by eexists _, _.
    + rewrite writeMessage_room by done. exists []. eexists. split; [done|].
      simpl. by rewrite app_nil_r.
Qed.

Lemma writePump_step_log b sel r s w w' :
  writePump_step b sel r s w = Done w' -> exists evs, log w' = log w ++ evs.
Proof.
  unfold writePump_step. destruct (pump (heap w s)); [|done..]. destruct sel.
  - unfold Chan.recv. destruct (Chan.buf (output (heap w s))) as [|e rest].
    + destruct (Chan.closed (output (heap w s))); [|done].
      cbn [mbind outcome_bind]. intros [= <-]. unfold close.
      destruct (writeRaw_to_emit r s close_envelope
                  (update s (set_output (output (heap w s))) w)) as (evs & ->).
      by exists evs.
    + cbn [mbind outcome_bind]. set (w0 := update s _ w).
      destruct (writeRaw_to_emit r s e w0) as (evs & Hraw).
      destruct (writeRaw r s e w0) as [w1 [err|]]; simpl in Hraw; subst w1.
      * unfold call_errorHandler. destruct (errorHandler b); [|done].
        cbn [mbind outcome_bind]. intros [= <-]. eexists. simpl. by rewrite <- app_assoc.
      * intros [= <-]. by exists evs.
  - intros [= <-]. unfold ping.
    destruct (writeRaw_to_emit r s ping_envelope w) as (evs & ->). by exists evs.
Qed.

Lemma run_pump_log b r n s : forall w w',
  run_pump b r n s w = Done w' -> exists evs, log w' = log w ++ evs.
Proof.
  induction n as [|n IH]; intros w w'; simpl.
  - intros [= <-]. exists []. by rewrite app_nil_r.
  - destruct (pump (heap w s)); try (intros [= <-]; exists []; by rewrite app_nil_r).
    destruct (writePump_step b CaseOutput (r n) s w) as [w1| |] eqn:Hstep; [|done..].
    cbn [mbind outcome_bind]. intros Hrun.
    apply writePump_step_log in Hstep as (evs1 & Hl1). apply IH in Hrun as (evs2 & Hl2).
    exists (evs1 ++ evs2). by rewrite Hl2, Hl1, <- app_assoc.
Qed.

Lemma exec_op_log b op h w h' w' :
  exec_op b op h w = Done (h', w') -> exists evs, log w' = log w ++ evs.
Proof.
  assert (Hnil : exists evs, log w = log w ++ evs) by (exists []; by rewrite app_nil_r).
  destruct op; cbn [exec_op]; try (by intros [= <- <-]).
  - destruct (writeMessage_always_returns_aux b s close_envelope w) as (evs & w1 & Hcl & Hl).
    unfold Close. rewrite Hcl. cbn [mbind outcome_bind]. intros [= <- <-]. by exists evs.
  - destruct (Chan.close (output (heap w s))); cbn [mbind outcome_bind]; [|done..].
    by intros [= <- <-].
  - unfold recv_exited. destruct (pump (heap w s)); try done.
    cbn [mbind outcome_bind]. intros [= <- <-]. by eexists.
  - destruct (Chan.send (output (heap w s)) e true) as [[c sel]| |];
      cbn [mbind outcome_bind]; [|done..].
    by intros [= <- <-].
Qed.

Lemma run_ops_log b r ops : forall h w h' w',
  run_ops b r ops h w = Done (h', w') -> exists evs, log w' = log w ++ evs.
Proof.
  induction ops as [|op ops IH]; intros h w h' w'.
  - intros [= <- <-]. exists []. by rewrite app_nil_r.
  - cbn [run_ops].
    destruct (match op with
              | RecvExited s => run_pump b r (S (length (Chan.buf (output (heap w s))))) s w
              | _ => Done w
              end) as [w1| |] eqn:Hpre; [|done..].
    cbn [mbind outcome_bind].
    destruct (exec_op b op h w1) as [[h2 w2]| |] eqn:Hop; [|done..].
    cbn [mbind outcome_bind]. intros Hrest.
    assert (H1 : exists evs, log w1 = log w ++ evs).
    { destruct op; try (injection Hpre as <-; exists []; by rewrite app_nil_r).
      by apply run_pump_log in Hpre. }
    destruct H1 as (evs1 & Hl1). apply exec_op_log in Hop as (evs2 & Hl2).
    apply IH in Hrest as (evs3 & Hl3).
    exists (evs1 ++ evs2 ++ evs3). by rewrite Hl3, Hl2, Hl1, <- !app_assoc.
Qed.

(** Tearing one session down while the connection accepts the frames. *)
Lemma teardown_one_frame b s h w :
  ready w s ->
  pump (heap w s) = InLoop ->
  exists w', run_ops b (fun _ => ok_io) [SessionClose s; CloseOutput s; RecvExited s] h w
             = Done (h, w') /\
    WriteMessage s websocket.CloseMessage [] ∈ log w'.
Proof.
  intros [Hc _] Hp.
  destruct (writeMessage_frame b s close_envelope w) as (wa & Hclose & _ & Hpa & Hca).
  rewrite Hc in Hca. rewrite Hp in Hpa.
  set (wb := update s (set_output {| Chan.buf := Chan.buf (output (heap wa s));
                                     Chan.dataqsiz := Chan.dataqsiz (output (heap wa s));
                                     Chan.closed := true |}) wa).
  destruct (run_pump_drains b s (Chan.buf (output (heap wb s))) wb)
    as (wc & Hrun & Hlog & Hpc & _).
  { unfold wb. by heap_norm. }
  { unfold wb. by heap_norm. }
  { done. }
  cbn [run_ops exec_op]. cbn [mbind outcome_bind]. unfold Close. rewrite Hclose.
  cbn [mbind outcome_bind]. unfold Chan.close. rewrite Hca. cbn [mbind outcome_bind].
  fold wb. rewrite Hrun. cbn [mbind outcome_bind]. unfold recv_exited. rewrite Hpc.
  cbn [mbind outcome_bind]. eexists. split; [done|]. simpl. rewrite Hlog.
  rewrite !elem_of_app. left. right. right. right. by left.
Qed.

Lemma entry_sessions_split order s :
  s ∈ entry_sessions order ->
  exists o1 key ss1 ss2 o2, order = o1 ++ (key, ss1 ++ s :: ss2) :: o2.
Proof.
  unfold entry_sessions. rewrite elem_of_flat_map. intros ([key ss] & Hin & Hs).
  apply list_elem_of_split in Hin as (o1 & o2 & ->).
  apply list_elem_of_split in Hs as (ss1 & ss2 & Hss). simpl in Hss. subst ss.
  by exists o1, key, ss1, ss2, o2.
Qed.

(** X25: at shutdown every session whose write loop is still at its select
    is sent a close frame before [Hub.Close] returns, whether or not its
    queue had room for the close envelope, as long as the connections
    accept the frames. *)
Theorem shutdown_sends_close_frames b order p w s :
  errorHandler b = true ->
  exited (hub p) = false -> pending p = [] ->
  order ≡ₚ map_to_list (sessions (hub p)) ->
  NoDup (entry_sessions order) ->
  (forall s', s' ∈ entry_sessions order -> ready w s') ->
  s ∈ entry_sessions order ->
  pump (heap w s) = InLoop ->
  exists p' w',
    Hub_Close b (fun _ => ok_io) order p w = Done (p', w') /\
    WriteMessage s websocket.CloseMessage [] ∈ log w'.
Proof.
  intros Hh Hex Hpend Hperm Hnd Hready Hs Hp.
  destruct (Hub_Close_done b (fun _ => ok_io) order p w) as (w' & Hclose & _); [done..|].
  exists hubproc_done, w'. split; [done|].
  destruct (entry_sessions_split order s Hs) as (o1 & key & ss1 & ss2 & o2 & ->).
  rewrite entry_sessions_app, entry_sessions_cons in Hnd, Hready.
  apply NoDup_app in Hnd as (Hnd1 & Hdisj1 & Hnd2).
  apply NoDup_app in Hnd2 as (Hnd2 & _ & _).
  apply NoDup_app in Hnd2 as (Hnd2 & Hdisj2 & _).
  set (h0 := {| closed := 1; exited := exited (hub p); sessions := sessions (hub p) |}).
  destruct (teardown_entries_run b (fun _ => ok_io) o1 Hh h0 w Hnd1)
    as (wa & Hruna & _ & Hfra).
  { intros s' Hs'. apply Hready, elem_of_app. by left. }
  destruct (teardown_all b (fun _ => ok_io) ss1 Hh (drop_entries o1 h0) wa Hnd2)
    as (wb & Hrunb & _ & Hfrb).
  { intros s' Hs'. unfold ready. rewrite Hfra.
    - apply Hready. rewrite !elem_of_app. right. left. by left.
    - intros Hin. apply (Hdisj1 s' Hin). rewrite !elem_of_app. left. by left. }
  assert (Hsame : heap wb s = heap w s).
  { rewrite Hfrb, Hfra; [done| |].
    - intros Hin. apply (Hdisj1 s Hin). rewrite !elem_of_app. left. right. by left.
    - intros Hin. apply (Hdisj2 s Hin). by left. }
  destruct (teardown_one_frame b s (drop_entries o1 h0) wb) as (wc & Hrunc & Hframe).
  { unfold ready. rewrite Hsame. apply Hready. rewrite !elem_of_app. right. left. right.
    by left. }
  { by rewrite Hsame. }
  unfold Hub_Close, hub_recv in Hclose. rewrite Hex, Hpend in Hclose.
  cbn [mbind outcome_bind pending hub Run_case] in Hclose.
  rewrite case_exit_unfold, teardown_entries_app, teardown_entries_cons, teardown_app,
    teardown_cons in Hclose.
  cbn [run_ops exec_op mbind outcome_bind] in Hclose. fold h0 in Hclose.
  rewrite <- !app_assoc in Hclose.
  rewrite run_ops_app, Hruna in Hclose. cbn [mbind outcome_bind] in Hclose.
  rewrite run_ops_app, Hrunb in Hclose. cbn [mbind outcome_bind] in Hclose.
  rewrite run_ops_app, Hrunc in Hclose. cbn [mbind outcome_bind] in Hclose.
  match type of Hclose with
  | context [run_ops ?b' ?r' ?ops' ?h' ?w0] =>
      destruct (run_ops b' r' ops' h' w0) as [[hf wf]| |] eqn:Hrest; [|done..]
  end.
  cbn [mbind outcome_bind] in Hclose. destruct (exited hf); [|done].
  injection Hclose as _ <-. apply run_ops_log in Hrest as (evs & ->).
  apply elem_of_app. by left.
Qed.

Lemma shutdown_sends_close_frames_witness :
  exists p' w',
    Hub_Close b_on (fun _ => ok_io) (map_to_list (sessions hub_ab))
      {| hub := hub_ab; pending := [] |} (world_of st_full) = Done (p', w') /\
    WriteMessage s3 websocket.CloseMessage [] ∈ log w'.
Proof.
  apply (shutdown_sends_close_frames b_on (map_to_list (sessions hub_ab))
           {| hub := hub_ab; pending := [] |} (world_of st_full) s3);
    try reflexivity.
  - apply (bool_decide_unpack _). by vm_compute.
  - intros s _. split; [reflexivity | discriminate].
  - apply (bool_decide_unpack _). by vm_compute.
Defined.
